(** * The consolidation core of [Datafiles/utils.py]

    A shallow embedding of the functions that the consolidation pipeline of
    the repository is built from, and the properties proved about them:

    - [FileDeps]: the declared set of input files of a cacheable function;
    - [cached]: the memoizing decorator and the files it reads and writes;
    - [check_fun_dep] and the combiners ([leftmost_combiner],
      [rightmost_combiner], [unique_combiner], [priority_combiner]);
    - the tails of [load_ground] and [load_addrm], from the concatenation of
      the per-source tables on;
    - [n_ml_tms_to_p] and [p_to_n_ml_tms], the numbering of the harmonic
      oscillator states, with [canonicalize_p], [p_num_filled_to_label] and
      [preferred_ml];
    - what the pipeline is fed with and what it feeds: [get_num_filled],
      [parse_nathan_like_data], [load_ground_dmc], [load_addrm_dmc],
      [load_all_dmc], [load_all] and [superset_combiner];
    - the fingerprint [FileDeps._hash], the name of a cache entry and
      [save_json];
    - the helpers [groupby], [intersperse], [merge_dicts], [update_range],
      [parse_color] and [split_alpha_colormap].

    Conventions.  A Python exception is a value of [exn] and a call that may
    raise returns a [result].  Python integers are [Z].  The one
    floating-point computation written in the source, [(4 * p + 1) ** 0.5 - 1],
    is evaluated in IEEE-754 binary64 with the operations of [SpecFloat];
    the power [** 0.5] is a parameter of the decoder, asked only to return a
    double next to the root (see [Float64.faithful]).
    The numbers stored in tables are exact rationals ([Qc]): pandas computes
    the standard deviation of a group in floating point, and the model decides
    [std > tol] over the rationals instead (see [std_gt]). *)

From Stdlib Require Import ZArith QArith Qcanon SpecFloat Lia.
From stdpp Require Import gmap strings list sorting.

(** ** Part I: the model *)

(** *** Cells, records and tables *)

(** A cell of a [pandas.DataFrame]: a number, a string, or the missing value
    ([NaN] / [None]), which [isnull] reports. *)
Inductive value :=
  | VNum (q : Qc)
  | VStr (s : string)
  | VNull.

#[global] Instance value_eq_dec : EqDecision value.
Proof. solve_decision. Defined.

(** A record maps column names to cells; a name that is absent reads as the
    missing value, as in a frame built from records that lack a field. *)
Abbreviation row := (gmap string value).

Definition cell (r : row) (c : string) : value := default VNull (r !! c).

Definition isnull (v : value) : bool :=
  match v with VNull => true | _ => false end.

(** A frame: its columns, and its records in order, each with its index
    label. *)
Record DataFrame := mkFrame {
  columns : gset string;
  entries : list (nat * row);
}.

#[global] Instance DataFrame_eq_dec : EqDecision DataFrame.
Proof. solve_decision. Defined.

Definition index (d : DataFrame) : list nat := (entries d).*1.
Definition rows (d : DataFrame) : list row := (entries d).*2.

(** [len(d)] *)
Definition len (d : DataFrame) : nat := length (entries d).

(** [d.reset_index(drop=True)]: the labels become [0 .. len(d) - 1]. *)
Definition reset_index (d : DataFrame) : DataFrame :=
  mkFrame (columns d) (zip (seq 0 (len d)) (rows d)).

(** A frame with the default [RangeIndex]. *)
Definition of_rows (cols : list string) (rs : list row) : DataFrame :=
  mkFrame (list_to_set cols) (zip (seq 0 (length rs)) rs).

(** *** Exceptions *)

Inductive exn :=
  | ValueError (msg : string)
  | KeyError (key : string)
  | TypeError (msg : string)
  | AssertionError
  | OverflowError
  | OSError
  | UnpicklingError
  | EOFError
  | IndexError
  | Exception (msg : string)
  | FunDepViolationError (in_cols out_cols : list string)
                         (violations : DataFrame).

#[global] Instance exn_eq_dec : EqDecision exn.
Proof. solve_decision. Defined.

Inductive result (A : Type) :=
  | Ok (a : A)
  | Raise (e : exn).

Arguments Ok {A} a.
Arguments Raise {A} e.

#[global] Instance result_ret : MRet result := @Ok.
#[global] Instance result_bind : MBind result := λ A B f m,
  match m with
  | Ok a => f a
  | Raise e => Raise e
  end.

#[global] Instance result_fmap : FMap result := λ A B f m,
  match m with
  | Ok a => Ok (f a)
  | Raise e => Raise e
  end.

#[global] Instance result_eq_dec `{EqDecision A} : EqDecision (result A).
Proof. solve_decision. Defined.

Definition raises {A} (m : result A) : Prop := ∃ e, m = Raise e.

Definition is_fun_dep_violation (e : exn) : bool :=
  match e with FunDepViolationError _ _ _ => true | _ => false end.

(** [functools]-free sequencing: apply [f] to the elements from left to right
    and stop at the first exception. *)
Fixpoint traverse {A B} (f : A → result B) (l : list A) : result (list B) :=
  match l with
  | [] => Ok []
  | x :: l' => y ← f x; ys ← traverse f l'; Ok (y :: ys)
  end.

(** *** Column access and element-wise arithmetic *)

(** [d[c]] *)
Definition getcol (d : DataFrame) (c : string) : result (list value) :=
  if bool_decide (c ∈ columns d) then Ok ((λ r, cell r c) <$> rows d)
  else Raise (KeyError c).

(** [d[cs]] for a list of names: the first name that is not a column is
    reported. *)
Definition require_columns (d : DataFrame) (cs : list string) : result unit :=
  match filter (λ c, c ∉ columns d) cs with
  | c :: _ => Raise (KeyError c)
  | [] => Ok tt
  end.

(** [d[c] = f(row)], element by element. *)
Definition setcol (d : DataFrame) (c : string) (f : row → result value)
  : result DataFrame :=
  es ← traverse (λ e, v ← f e.2; Ok (e.1, <[c := v]> e.2)) (entries d);
  Ok (mkFrame ({[c]} ∪ columns d) es).

(** [d[c] = v] for a scalar [v] *)
Definition setconst (d : DataFrame) (c : string) (v : value) : DataFrame :=
  mkFrame ({[c]} ∪ columns d) (prod_map id (insert c v) <$> entries d).

(** [del d[c]] *)
Definition delcol (d : DataFrame) (c : string) : result DataFrame :=
  if bool_decide (c ∈ columns d)
  then Ok (mkFrame (columns d ∖ {[c]}) (prod_map id (delete c) <$> entries d))
  else Raise (KeyError c).

(** Arithmetic on cells: the missing value propagates, a string operand is a
    [TypeError]. *)
Definition add_value (a b : value) : result value :=
  match a, b with
  | VNum x, VNum y => Ok (VNum (x + y))
  | VStr _, _ | _, VStr _ => Raise (TypeError "unsupported operand type(s) for +")
  | _, _ => Ok VNull
  end.

Definition mul_value (a b : value) : result value :=
  match a, b with
  | VNum x, VNum y => Ok (VNum (x * y))
  | VStr _, _ | _, VStr _ => Raise (TypeError "unsupported operand type(s) for *")
  | _, _ => Ok VNull
  end.

(** Division by zero gives an infinity or a NaN in pandas; the model has no
    infinities and leaves the cell missing. *)
Definition div_value (a b : value) : result value :=
  match a, b with
  | VNum x, VNum y => Ok (if bool_decide (y = 0%Qc) then VNull else VNum (x / y))
  | VStr _, _ | _, VStr _ => Raise (TypeError "unsupported operand type(s) for /")
  | _, _ => Ok VNull
  end.

(** [pd.concat(ds)]: the records of the frames one after the other; a column
    that a frame lacks reads as missing there. *)
Definition pd_concat (ds : list DataFrame) : result DataFrame :=
  match ds with
  | [] => Raise (ValueError "No objects to concatenate")
  | _ => Ok (mkFrame (⋃ (columns <$> ds)) (ds ≫= entries))
  end.

(** [pd.concat(ds, ignore_index=True)] *)
Definition pd_concat_ignore_index (ds : list DataFrame) : result DataFrame :=
  reset_index <$> pd_concat ds.

(** *** Group-by *)

(** The order in which pandas iterates over the groups: numbers by value,
    strings lexicographically.  A column holds cells of one kind; that numbers
    come before strings is a convention of the model. *)
Definition value_leb (a b : value) : bool :=
  match a, b with
  | VNull, _ => true
  | VNum _, VNull => false
  | VNum x, VNum y => bool_decide (x ≤ y)%Qc
  | VNum _, VStr _ => true
  | VStr s, VStr t => String.leb s t
  | VStr _, _ => false
  end.

Fixpoint key_leb (k1 k2 : list value) : bool :=
  match k1, k2 with
  | [], _ => true
  | _ :: _, [] => false
  | a :: k1', b :: k2' =>
      if bool_decide (a = b) then key_leb k1' k2' else value_leb a b
  end.

Definition key_le (k1 k2 : list value) : Prop := key_leb k1 k2 = true.

#[global] Instance key_le_dec : RelDecision key_le.
Proof. intros k1 k2. unfold key_le. apply _. Defined.

(** The key of a record: its cells in the key columns. *)
Definition row_key (cols : list string) (r : row) : list value :=
  (λ c, cell r c) <$> cols.

(** [d.groupby(cols)] *)
Record GroupBy := mkGroupBy {
  gb_obj : DataFrame;
  gb_by : list string;
}.

(** The constructor resolves the keys at once: no key, or a key that is not
    a column, is an error here, before any group is formed. *)
Definition groupby (d : DataFrame) (cols : list string) : result GroupBy :=
  match cols with
  | [] => Raise (ValueError "No group keys passed!")
  | _ => _ ← require_columns d cols; Ok (mkGroupBy d cols)
  end.

(** The distinct keys in iteration order; a record with a missing value in a
    key column belongs to no group. *)
Definition group_keys (gs : GroupBy) : list (list value) :=
  merge_sort key_le
    (remove_dups
       (filter (λ k, VNull ∉ k) (row_key (gb_by gs) <$> rows (gb_obj gs)))).

(** [gs.get_group(k)]: the records with key [k], in their order and with
    their labels. *)
Definition get_group (gs : GroupBy) (k : list value) : DataFrame :=
  mkFrame (columns (gb_obj gs))
          (filter (λ e, row_key (gb_by gs) e.2 = k) (entries (gb_obj gs))).

Definition groups (gs : GroupBy) : list DataFrame :=
  get_group gs <$> group_keys gs.

(** *** Standard deviation *)

Definition number (v : value) : option Qc :=
  match v with VNum q => Some q | _ => None end.

(** The numbers of column [c], when every cell of it is one. *)
Definition numbers (d : DataFrame) (c : string) : option (list Qc) :=
  mapM (λ r, number (cell r c)) (rows d).

Definition total (xs : list Qc) : Qc := foldr Qcplus 0%Qc xs.

Definition mean (xs : list Qc) : Qc :=
  (total xs / Qc_of_Z (Z.of_nat (length xs)))%Qc.

(** The population variance, the square of [std(ddof=0)]. *)
Definition variance (xs : list Qc) : Qc :=
  (total ((λ x, (x - mean xs) * (x - mean xs)) <$> xs)
   / Qc_of_Z (Z.of_nat (length xs)))%Qc.

(** [std > tol], for a standard deviation given by its square [v]: a
    standard deviation is not negative, so it exceeds a negative tolerance,
    and it exceeds a tolerance [tol >= 0] when [v > tol * tol]. *)
Definition std_gt (v tol : Qc) : bool :=
  bool_decide (tol < 0)%Qc || bool_decide (tol * tol < v)%Qc.

(** [gs.std(ddof=0)[c]], as the variance of each group.  The key columns are
    the index of the result and a column that is not numeric is left out of
    it, so that neither can be selected. *)
Definition std_column (gs : GroupBy) (c : string)
  : result (list (list value * Qc)) :=
  if bool_decide (c ∈ gb_by gs) then Raise (KeyError c)
  else if bool_decide (c ∉ columns (gb_obj gs)) then Raise (KeyError c)
  else match numbers (gb_obj gs) c with
       | None => Raise (KeyError c)
       | Some _ =>
           Ok ((λ k, (k, variance (default [] (numbers (get_group gs k) c))))
                 <$> group_keys gs)
       end.

(** [std[c] > tol], a boolean series over the group keys *)
Definition exceeds (gs : GroupBy) (ct : string * Qc)
  : result (list (list value * bool)) :=
  std_column gs ct.1 ≫= λ s : list (list value * Qc),
  Ok ((λ kv, (kv.1, std_gt kv.2 ct.2)) <$> s).

(** [x | y] on two such series *)
Definition series_or (x y : list (list value * bool))
  : list (list value * bool) :=
  zip_with (λ a b, (a.1, a.2 || b.2)) x y.

(** [functools.reduce(lambda x, y: x | y, ...)], without an initial value *)
Definition reduce_or (xs : list (list (list value * bool)))
  : result (list (list value * bool)) :=
  match xs with
  | [] => Raise (TypeError "reduce() of empty sequence with no initial value")
  | x :: xs' => Ok (foldl series_or x xs')
  end.

(** *** [GroupBy.apply] *)

(** [d.reindex(labels)] *)
Definition reindex (d : DataFrame) (labels : list nat) : result DataFrame :=
  if bool_decide (index d = labels) then Ok d
  else if bool_decide (NoDup (index d)) then
    Ok (mkFrame (columns d)
          ((λ i, (i, default ∅ ((list_to_map (entries d) : gmap nat row) !! i)))
             <$> labels))
  else Raise (ValueError "cannot reindex from a duplicate axis").

Section GroupByApply.

(** pandas restores the order of the input when every group comes back
    indexed like the group it was computed from.  How it tests this differs
    between its code paths (identity of the index object, or equality of
    the labels) and is left open: [indexed_like g r] is the outcome of the
    test for group [g] and result [r]. *)
Variable indexed_like : DataFrame → DataFrame → bool.

Definition apply (gs : GroupBy) (f : DataFrame → result DataFrame)
  : result DataFrame :=
  results ← traverse f (groups gs);
  match results with
  | [] => Ok (mkFrame ∅ [])
  | _ =>
      if forallb (λ gr, indexed_like gr.1 gr.2) (zip (groups gs) results)
      then d ← pd_concat results; reindex d (index (gb_obj gs))
      else pd_concat results
  end.

(** *** [check_fun_dep] *)

Definition check_fun_dep (d : DataFrame) (cols : list string)
    (tolers : list (string * Qc))
    (combiner : option (DataFrame → result DataFrame))
  : result DataFrame :=
  let out_cols := tolers.*1 in
  gs ← groupby d cols;
  if bool_decide (len d = 0) then Ok d
  else
    _ ← require_columns d (cols ++ out_cols);
    if existsb (λ r, existsb (λ c, isnull (cell r c)) (cols ++ out_cols))
               (rows d)
    then Raise (ValueError "input columns must not contain NaN")
    else
      series ← traverse (exceeds gs) tolers;
      mask ← reduce_or series;
      if existsb snd mask then
        violations ← pd_concat ((λ kv, get_group gs kv.1) <$> filter (λ kv, kv.2 = true) mask);
        Raise (FunDepViolationError cols out_cols violations)
      else
        match combiner with
        | None => Ok d
        | Some f => reset_index <$> apply gs f
        end.

End GroupByApply.

(** The test on the labels: the result has the labels of its group. *)
Definition index_equals (g r : DataFrame) : bool :=
  bool_decide (index r = index g).

(** *** The combiners *)

(** [d.iloc[[0]]] *)
Definition leftmost_combiner (d : DataFrame) : result DataFrame :=
  match entries d with
  | [] => Raise IndexError
  | e :: _ => Ok (mkFrame (columns d) [e])
  end.

(** [d.iloc[[-1]]] *)
Definition rightmost_combiner (d : DataFrame) : result DataFrame :=
  match last (entries d) with
  | None => Raise IndexError
  | Some e => Ok (mkFrame (columns d) [e])
  end.

Definition unique_combiner (d : DataFrame) : result DataFrame :=
  if bool_decide (len d ≠ 1) then Raise (Exception "this group is not unique")
  else Ok d.

(** Two records are duplicates when they agree on every column. *)
Definition same_record (cols : gset string) (r1 r2 : row) : Prop :=
  set_Forall (λ c, cell r1 c = cell r2 c) cols.

#[global] Instance same_record_dec cols : RelDecision (same_record cols).
Proof. intros r1 r2. unfold same_record. apply _. Defined.

(** [d.drop_duplicates()]: the first of each class of duplicates is kept. *)
Fixpoint drop_dups (cols : gset string) (es : list (nat * row))
  : list (nat * row) :=
  match es with
  | [] => []
  | e :: es' =>
      e :: filter (λ e', ¬ same_record cols e.2 e'.2) (drop_dups cols es')
  end.

Definition drop_duplicates (d : DataFrame) : DataFrame :=
  mkFrame (columns d) (drop_dups (columns d) (entries d)).

Definition value_max (a b : value) : value :=
  if value_leb a b then b else a.

(** [s.max()]: missing values are skipped; with nothing else the result is
    missing. *)
Definition series_max (vs : list value) : value := foldr value_max VNull vs.

(** [a == b] on cells: a missing value equals nothing. *)
Definition value_eqb (a b : value) : bool :=
  match a, b with
  | VNull, _ | _, VNull => false
  | _, _ => bool_decide (a = b)
  end.

Definition priority_combiner (d : DataFrame) : result DataFrame :=
  let d := drop_duplicates d in
  p ← getcol d "priority";
  let d := mkFrame (columns d)
             (filter (λ e, value_eqb (cell e.2 "priority") (series_max p) = true)
                     (entries d)) in
  if bool_decide (1 < len d)
  then Raise (Exception "cannot resolve data with equal priority")
  else Ok d.

(** *** The merge pipelines

    [load_ground] and [load_addrm] from [d = pd.concat(ds, ignore_index=True)]
    on; [ds] are the tables read from the files, each in the common
    schema. *)
Section Pipelines.

Variable indexed_like : DataFrame → DataFrame → bool.

(** [d["num_particles"] = d["num_filled"] * (d["num_filled"] + 1)] *)
Definition set_num_particles (d : DataFrame) : result DataFrame :=
  _ ← getcol d "num_filled";
  setcol d "num_particles" (λ r,
    x ← add_value (cell r "num_filled") (VNum 1);
    mul_value (cell r "num_filled") x).

(** [d["energy_per_particle"] = d["energy"] / d["num_particles"]] *)
Definition set_energy_per_particle (d : DataFrame) : result DataFrame :=
  _ ← getcol d "energy";
  _ ← getcol d "num_particles";
  setcol d "energy_per_particle" (λ r,
    div_value (cell r "energy") (cell r "num_particles")).

Definition load_ground (with_priority : bool) (toler : Qc)
    (ds : list DataFrame) : result DataFrame :=
  d ← pd_concat_ignore_index ds;
  let combiner := if with_priority then (λ x, Ok x) else priority_combiner in
  d ← check_fun_dep indexed_like d
        ["freq"; "num_filled"; "num_shells"; "method"]
        [("energy", toler)] (Some combiner);
  d ← (if negb with_priority then delcol d "priority" else Ok d);
  let d := setconst d "interaction" (VStr "normal") in
  let d := setconst d "label" (VStr "ground") in
  let d := setconst d "ml" (VNum 0) in
  d ← set_num_particles d;
  set_energy_per_particle d.

Definition load_addrm (toler : Qc) (ds : list DataFrame)
  : result DataFrame :=
  d ← pd_concat_ignore_index ds;
  d ← check_fun_dep indexed_like d
        ["label"; "ml"; "interaction"; "freq"; "num_filled"; "num_shells";
         "method"]
        [("energy", toler)] (Some leftmost_combiner);
  set_num_particles d.

End Pipelines.

(** *** The cache files *)

Abbreviation bytes := (list Byte.byte).

(** The regular files, by path. *)
Abbreviation files := (gmap string bytes).

(** What a function does to the files, one step at a time; another process
    may read the files between two steps. *)
Inductive fs_op :=
  | Makedirs (dir : string)              (* os.makedirs(dir, exist_ok=True) *)
  | OpenWrite (path : string)            (* open(path, "w"), open(path, "wb") *)
  | Write (path : string) (data : bytes) (* the data reaches the file *)
  | Rename (src dst : string).           (* os.rename(src, dst) *)

Definition fs_step (st : files) (op : fs_op) : files :=
  match op with
  | Makedirs _ => st
  | OpenWrite path => <[path := []]> st
  | Write path data => <[path := default [] (st !! path) ++ data]> st
  | Rename src dst =>
      match st !! src with
      | Some b => <[dst := b]> (delete src st)
      | None => st
      end
  end.

Definition fs_run (st : files) (ops : list fs_op) : files :=
  foldl fs_step st ops.

(** The states of the files that another process can see while [ops] run:
    the one after each step. *)
Definition observable (st : files) (ops : list fs_op) : list files :=
  (λ n, fs_run st (take n ops)) <$> seq 1 (length ops).

(** [save_json(fn, j)], for the text [data] that [write_json] produces *)
Definition save_json (fn : string) (data : bytes) : list fs_op :=
  [OpenWrite (fn +:+ ".tmp"); Write (fn +:+ ".tmp") data;
   Rename (fn +:+ ".tmp") fn].

(** *** [cached] *)

Section Cached.

Context {Args Res : Type}.

(** The parameters of [cached] and the decorated function.  [cache_path] is
    the path that the wrapper derives from the function's name and the
    digest of its bound arguments; [dump] and [load] are the serializer and
    the deserializer, [pickle.dump] and [pickle.load] by default. *)
Variable dir : string.
Variable cache_path : Args → result string.
Variable dump : Res → result bytes.
Variable load : bytes → result Res.
Variable func : Args → result Res.

(** [except (OSError, pickle.UnpicklingError)] *)
Definition caught (e : exn) : bool :=
  match e with
  | OSError | UnpicklingError => true
  | _ => false
  end.

(** [with open(path, "rb") as f: return load(f)] *)
Definition read_entry (st : files) (path : string) : result Res :=
  match st !! path with
  | None => Raise OSError
  | Some b => load b
  end.

(** The wrapper: what the call returns or raises, and what it does to the
    files. *)
Definition wrapper (st : files) (args : Args) : result Res * list fs_op :=
  match cache_path args with
  | Raise e => (Raise e, [])
  | Ok path =>
      match read_entry st path with
      | Ok r => (Ok r, [])
      | Raise e =>
          if caught e then
            match func args with
            | Raise e' => (Raise e', [])
            | Ok r =>
                match dump r with
                | Raise e' => (Raise e', [Makedirs dir; OpenWrite path])
                | Ok data =>
                    (Ok r, [Makedirs dir; OpenWrite path; Write path data])
                end
            end
          else (Raise e, [])
      end
  end.

End Cached.

(** *** [FileDeps] *)

Module FileDeps.

(** [self._paths = frozenset(paths)] *)
Record t := make { _paths : gset string }.

Definition init (paths : list string) : t := make (list_to_set paths).

(** [__getitem__] *)
Definition getitem (self : t) (path : string) : result string :=
  if bool_decide (path ∉ _paths self)
  then Raise (ValueError ("undeclared dependency: " +:+ path))
  else Ok path.


(** The order of [sorted] on paths *)
Definition path_le (p q : string) : Prop := String.leb p q = true.

#[global] Instance path_le_dec : RelDecision path_le.
Proof. intros p q. unfold path_le. apply _. Defined.

Section Hash.

Context {Time : Type}.

(** [os.path.getmtime(path)], as the files are when [_hash] is called; it
    raises for a path that is not there. *)
Variable getmtime : string → result Time.

Definition _hash (self : t) : result (list (string * Time)) :=
  traverse (λ path, t ← getmtime path; Ok (path, t))
           (merge_sort path_le (elements (_paths self))).

End Hash.

End FileDeps.

(** *** The state numbering *)

Module Float64.

(** IEEE-754 binary64. *)
Definition prec : Z := 53.
Definition emax : Z := 1024.

(** [float(n)] for a Python integer: the nearest double, ties to even;
    Python raises [OverflowError] where the result is not finite. *)
Definition of_int (n : Z) : result spec_float :=
  match binary_normalize prec emax n 0 false with
  | S754_infinity _ | S754_nan => Raise OverflowError
  | x => Ok x
  end.

Definition one : spec_float := binary_normalize prec emax 1 0 false.

(** The correctly rounded square root. *)
Definition sqrt (x : spec_float) : spec_float := SFsqrt prec emax x.

(** The square root of a positive double rounded to a neighbouring double:
    downward ([up = false]) or upward ([up = true]); an exact root is kept. *)
Definition sqrt_toward (up : bool) (x : spec_float) : spec_float :=
  match x with
  | S754_finite false mx ex =>
      let '(mz, ez, lz) := SFsqrt_core_binary prec emax (Zpos mx) ex in
      binary_round_aux prec emax false mz ez
        match lz with
        | loc_Exact => loc_Exact
        | loc_Inexact _ => loc_Inexact (if up then Gt else Lt)
        end
  | _ => SFsqrt prec emax x
  end.

(** [x ** 0.5] is the C library's [pow(x, 0.5)], which is not bound to round
    correctly. What is asked of it: on a positive double it returns one of the
    two doubles next to the root, and the root itself where it is a double. *)
Definition faithful (pow_half : spec_float → spec_float) : Prop :=
  ∀ mx ex, pow_half (S754_finite false mx ex)
             = sqrt_toward false (S754_finite false mx ex)
           ∨ pow_half (S754_finite false mx ex)
             = sqrt_toward true (S754_finite false mx ex).

Definition sub (x y : spec_float) : spec_float := SFsub prec emax x y.

(** [int(x)]: truncation toward zero; an infinity or a NaN raises. *)
Definition to_int (x : spec_float) : result Z :=
  match x with
  | S754_zero _ => Ok 0%Z
  | S754_finite s m e =>
      let a := match e with
               | Zneg k => Z.shiftr (Zpos m) (Zpos k)
               | _ => Z.shiftl (Zpos m) e
               end in
      Ok (if s then - a else a)%Z
  | S754_infinity _ => Raise OverflowError
  | S754_nan => Raise (ValueError "cannot convert float NaN to integer")
  end.

End Float64.

Module QuantumNumbers.

Local Open Scope Z_scope.

(** [assert cond] *)
Definition assert (cond : bool) : result unit :=
  if cond then Ok tt else Raise AssertionError.

Definition n_ml_tms_to_p (n ml tms : Z) : result Z :=
  _ ← assert (bool_decide (n >= 0));
  _ ← assert (bool_decide (tms ∈ [-1; 1]));
  let k := 2 * n + Z.abs ml in
  Ok ((1 - tms) `div` 2 + k * (k + 2) + ml).

Section Decode.

(** [x ** 0.5] on doubles *)
Variable pow_half : spec_float → spec_float.

(** [int((4 * p + 1) ** 0.5 - 1)] *)
Definition int_sqrt_minus_one (p : Z) : result Z :=
  x ← Float64.of_int (4 * p + 1);
  Float64.to_int (Float64.sub (pow_half x) Float64.one).

Definition p_to_n_ml_tms (p : Z) : result (Z * Z * Z) :=
  _ ← assert (bool_decide (p >= 0));
  let tms := 1 - p `mod` 2 * 2 in
  j ← int_sqrt_minus_one p;
  let k := j `div` 2 in
  let ml := p `div` 2 * 2 - k * (k + 2) in
  let n := (k - Z.abs ml) `div` 2 in
  Ok (n, ml, tms).

Definition p_to_ml (p : Z) : result Z :=
  '(_, ml, _) ← p_to_n_ml_tms p;
  Ok ml.

Definition canonicalize_p (p : Z) : result Z :=
  '(n, ml, _) ← p_to_n_ml_tms p;
  n_ml_tms_to_p n (Z.abs ml) 1.

(** decode, then encode *)
Definition roundtrip (p : Z) : result Z :=
  '(n, ml, tms) ← p_to_n_ml_tms p;
  n_ml_tms_to_p n ml tms.

End Decode.

End QuantumNumbers.

(** *** Notions used in the statements *)







(** The priorities of the records of a group, and the records that have the
    largest of them. *)
Definition priorities (d : DataFrame) : list value :=
  (λ r, cell r "priority") <$> rows d.

Definition top_priority (d : DataFrame) (e : nat * row) : Prop :=
  value_eqb (cell e.2 "priority") (series_max (priorities d)) = true.

#[global] Instance top_priority_dec d e : Decision (top_priority d e).
Proof. unfold top_priority. apply _. Defined.

(** The test of [GroupBy.apply] is sound when it only accepts a result that
    has the labels of its group; both tests of pandas are. *)
Definition indexed_like_sound (il : DataFrame → DataFrame → bool) : Prop :=
  ∀ g r, il g r = true → index r = index g.



(** *** Tables used in the examples *)

Definition num (n : Z) (d : positive) : value := VNum (Q2Qc (n # d)).

(** Two sources that give 10.0 and 10.05 for the same key. *)
Definition two_sources : DataFrame :=
  of_rows ["k"; "c"]
    [ {["k" := num 1 1; "c" := num 10 1]};
      {["k" := num 1 1; "c" := num 1005 100]} ].

(** Groups with priorities 0, 2, 2 and 0, 2. *)
Definition priorities_022 : DataFrame :=
  of_rows ["energy"; "priority"]
    [ {["energy" := num 1000 1000; "priority" := num 0 1]};
      {["energy" := num 1001 1000; "priority" := num 2 1]};
      {["energy" := num 1002 1000; "priority" := num 2 1]} ].

Definition priorities_022_duplicated : DataFrame :=
  of_rows ["energy"; "priority"]
    [ {["energy" := num 1000 1000; "priority" := num 0 1]};
      {["energy" := num 1001 1000; "priority" := num 2 1]};
      {["energy" := num 1001 1000; "priority" := num 2 1]} ].

Definition priorities_02 : DataFrame :=
  of_rows ["energy"; "priority"]
    [ {["energy" := num 1000 1000; "priority" := num 0 1]};
      {["energy" := num 1001 1000; "priority" := num 2 1]} ].

(** Two sources that give 100.001 and 100.002 for the ground state of the
    same system, the second with the higher priority. *)
Definition ground_record (energy : value) (priority : value) : row :=
  {[ "freq" := num 1 1; "num_filled" := num 2 1; "num_shells" := num 10 1;
     "method" := VStr "imsrg"; "energy" := energy; "priority" := priority ]}.

Definition ground_sources : list DataFrame :=
  [ of_rows ["freq"; "num_filled"; "num_shells"; "method"; "energy"; "priority"]
      [ground_record (num 100001 1000) (num (-1) 1)];
    of_rows ["freq"; "num_filled"; "num_shells"; "method"; "energy"; "priority"]
      [ground_record (num 100002 1000) (num 0 1)] ].

(** The same for an addition energy. *)
Definition addrm_record (energy : value) : row :=
  {[ "label" := VStr "add"; "ml" := num 0 1; "interaction" := VStr "normal";
     "freq" := num 1 1; "num_filled" := num 2 1; "num_shells" := num 10 1;
     "method" := VStr "imsrg+eom"; "energy" := energy ]}.

Definition addrm_sources : list DataFrame :=
  [ of_rows ["label"; "ml"; "interaction"; "freq"; "num_filled"; "num_shells";
             "method"; "energy"]
      [addrm_record (num 100001 1000)];
    of_rows ["label"; "ml"; "interaction"; "freq"; "num_filled"; "num_shells";
             "method"; "energy"]
      [addrm_record (num 100002 1000)] ].

(** A cache of bytes, for the examples: the entry of a call is one byte,
    and the deserializer raises [EOFError] on an empty file and
    [UnpicklingError] on anything else that is not one byte. *)
Definition sample_path (args : unit) : result string :=
  Ok ".cache/load_addrm_2jmj7l5rSw0yVb_vlWAYkK_YBwk.cache~".

Definition sample_dump (r : Byte.byte) : result bytes := Ok [r].

Definition sample_load (b : bytes) : result Byte.byte :=
  match b with
  | [] => Raise EOFError
  | [x] => Ok x
  | _ => Raise UnpicklingError
  end.

(** *** Labels *)


(** [label != "add"] counts as [1] when it holds and as [0] otherwise. *)
Definition preferred_ml (label : string) (num_filled : Z) : Z :=
  if bool_decide (label = "ground") then 0%Z
  else ((num_filled + (if bool_decide (label ≠ "add") then 1 else 0)) `mod` 2)%Z.

(** *** [get_num_filled] *)

(** A whole number as a cell. *)
Definition VNat (k : nat) : value := VNum (Qc_of_Z (Z.of_nat k)).

(** The function that [np.vectorize] wraps: the first [k] in
    [range(max_shells)] with [num_particles == k * (k + 1)]. *)
Definition get_num_filled_pyfunc (num_particles : value) (max_shells : nat)
  : result value :=
  match list_find (λ k, value_eqb num_particles (VNat (k * (k + 1))) = true)
                  (seq 0 max_shells) with
  | Some (_, k) => Ok (VNat k)
  | None => Raise (ValueError "could not find num_filled for num_particles")
  end.

(** [get_num_filled(column)]: element by element, with the default
    [max_shells=100]; [np.vectorize] refuses an input without elements. *)
Definition get_num_filled (num_particles : list value) : result (list value) :=
  match num_particles with
  | [] => Raise (ValueError "cannot call `vectorize` on size 0 inputs unless `otypes` is set")
  | _ => traverse (λ v, get_num_filled_pyfunc v 100) num_particles
  end.


(** *** The tables of the Monte Carlo results

    [load_ground_dmc] and [load_addrm_dmc] from the table that [load_table]
    returns on. *)









(** [superset_combiner]: [(d["origin"] != "NEW").all()] holds of a group
    without records. *)
Definition superset_combiner (d : DataFrame) : result DataFrame :=
  origin ← getcol d "origin";
  if forallb (λ v, negb (value_eqb v (VStr "NEW"))) origin
  then Raise (Exception "Not a superset:")
  else Ok d.

(** An old and a new set of results: the new one has the state of the old one
    and one more. *)
Definition old_and_new : DataFrame :=
  of_rows ["k"; "c"; "origin"]
    [ {["k" := num 1 1; "c" := num 10 1; "origin" := VStr "OLD"]};
      {["k" := num 2 1; "c" := num 20 1; "origin" := VStr "NEW"]};
      {["k" := num 1 1; "c" := num 10 1; "origin" := VStr "NEW"]} ].

(** *** [parse_nathan_like_data] *)

(** [-a] on a cell *)
Definition neg_value (a : value) : result value :=
  match a with
  | VNum x => Ok (VNum (- x))
  | VStr _ => Raise (TypeError "bad operand type for unary -")
  | VNull => Ok VNull
  end.

(** The cells of [r] in the columns [cs], under the names that [new] gives
    them. *)
Definition rename_row (new : string → string) (cs : list string) (r : row)
  : row :=
  foldr (λ c, <[new c := cell r c]>) ∅ cs.

(** [d[cs]] for a list of names: the frame of these columns. *)
Definition select_columns (d : DataFrame) (cs : list string)
  : result DataFrame :=
  _ ← require_columns d cs;
  Ok (mkFrame (list_to_set cs) (prod_map id (rename_row id cs) <$> entries d)).

(** The name of column [c] after [rename(columns=m)] *)
Definition renaming (m : list (string * string)) (c : string) : string :=
  default c ((list_to_map m : gmap string string) !! c).

(** [d.rename(columns=m)]: the columns that [m] names get their new name.
    The names of the result are distinct wherever the source renames. *)
Definition rename_columns (d : DataFrame) (m : list (string * string))
  : DataFrame :=
  mkFrame (set_map (renaming m) (columns d))
    (prod_map id (rename_row (renaming m) (elements (columns d)))
       <$> entries d).

Definition parse_nathan_like_data (d : DataFrame) (label : string)
  : result DataFrame :=
  d ← (if bool_decide (label = "add") then
         _ ← getcol d "E(N+1)-E(N)";
         setcol d "energy" (λ r, Ok (cell r "E(N+1)-E(N)"))
       else if bool_decide (label = "rm") then
         _ ← getcol d "E(N-1)-E(N)";
         setcol d "energy" (λ r, neg_value (cell r "E(N-1)-E(N)"))
       else Raise (ValueError "invalid value for label parameter"));
  d ← select_columns d ["shells"; "filled"; "ML"; "omega"; "energy"];
  let d := rename_columns d [("shells", "num_shells"); ("filled", "num_filled");
                             ("ML", "ml"); ("omega", "freq")] in
  Ok (setconst d "label" (VStr label)).

(** A table of removal energies as the sources give them. *)
Definition removed_table : DataFrame :=
  of_rows ["shells"; "filled"; "ML"; "MS"; "omega"; "E(N)"; "E(N-1)-E(N)"]
    [ {["shells" := num 10 1; "filled" := num 2 1; "ML" := num 1 1;
        "MS" := num (-1) 1; "omega" := num 1 1; "E(N)" := num 201 10;
        "E(N-1)-E(N)" := num (-35) 10]} ].

(** *** Small helpers *)

(** [list(intersperse(sep, xs))]: the elements that the generator yields,
    with its flag [first]. *)
Definition intersperse {A} (sep : A) (xs : list A) : list A :=
  (foldl (λ st x, if st.1 : bool then (false, st.2 ++ [x])
                  else (false, st.2 ++ [sep; x]))
         (true, []) xs).2.

(** [merge_dicts(d, *ds)]: a copy of [d], updated with each of [ds] in
    turn. *)
Definition merge_dicts `{Countable K} {V} (d : gmap K V)
    (ds : list (gmap K V)) : gmap K V :=
  foldl (λ d di, di ∪ d) d ds.

(** *** Ranges *)

Module Range.

(** A double as the comparisons see it: an infinity, a finite value or a
    NaN; the two zeros compare equal and are one value here. *)
Inductive number :=
  | NegInf
  | Fin (q : Qc)
  | PosInf
  | NaN.

#[global] Instance number_eq_dec : EqDecision number.
Proof. solve_decision. Defined.

(** [a <= b]: false when one of the two is a NaN. *)
Definition le (a b : number) : bool :=
  match a, b with
  | NaN, _ | _, NaN => false
  | NegInf, _ => true
  | _, PosInf => true
  | Fin x, Fin y => bool_decide (x ≤ y)%Qc
  | _, _ => false
  end.

(** The range [r] is a list of two: each [None] before the first update. *)
Definition range : Type := option number * option number.

(** One turn of the loop of [update_range]. *)
Definition update (r : range) (x : number) : range :=
  let r0 := match r.1 with
            | None => Some x
            | Some a => if negb (le a x) then Some x else Some a
            end in
  let r1 := match r.2 with
            | None => Some x
            | Some b => if negb (le x b) then Some x else Some b
            end in
  (r0, r1).

(** [update_range(r, x)] for the elements [xs] of [np.array(x).flatten()];
    the list [r] is updated in place, and is returned here. *)
Definition update_range (r : range) (xs : list number) : range :=
  foldl update r xs.

(** The bounds to be: what the range holds, and the elements. *)
Definition lower_candidates (r : range) (xs : list number) : list number :=
  match r.1 with Some a => a :: xs | None => xs end.

Definition upper_candidates (r : range) (xs : list number) : list number :=
  match r.2 with Some b => b :: xs | None => xs end.

End Range.

(** *** Colours *)

Module Colors.

(** The exceptions of [parse_color]. *)
Inductive error :=
  | IndexError
  | AssertionError
  | ValueError
  | NameError (name : string).

Section Parse.

(** [int(s, 16)]; [None] is its [ValueError]. *)
Variable int16 : string → option Z.

(** [int(color[i:j], 16) / 255.0] *)
Definition channel (color : string) (i j : nat) : error + Qc :=
  match int16 (String.substring i (j - i) color) with
  | Some n => inr (Qc_of_Z n / Qc_of_Z 255)%Qc
  | None => inl ValueError
  end.

(** The colour is a string ["#rrggbb[aa]"] or the sequence of its
    components. *)
Definition parse_color (color : string + list Qc) : error + list Qc :=
  match color with
  | inr components => inr components
  | inl color =>
      match color with
      | EmptyString => inl IndexError
      | String c _ =>
          if bool_decide (String c EmptyString ≠ "#") then inl AssertionError
          else
            match channel color 1 3 with
            | inl e => inl e
            | inr r =>
                match channel color 3 5 with
                | inl e => inl e
                | inr g =>
                    match channel color 5 7 with
                    | inl e => inl e
                    | inr b =>
                        if bool_decide (7 < String.length color)
                        then inl (NameError "hexcolor")
                        else inr [r; g; b]
                    end
                end
            end
      end
  end.

(** The colour map that [colormap] builds of the parsed colours, with numpy
    and matplotlib. *)
Context {Colormap : Type}.
Variable build : string → list (list Qc) → error + Colormap.

Fixpoint parse_colors (colors : list (string + list Qc))
  : error + list (list Qc) :=
  match colors with
  | [] => inr []
  | color :: colors' =>
      match parse_color color with
      | inl e => inl e
      | inr c =>
          match parse_colors colors' with
          | inl e => inl e
          | inr cs => inr (c :: cs)
          end
      end
  end.

Definition colormap (name : string) (colors : list (string + list Qc))
  : error + Colormap :=
  match parse_colors colors with
  | inl e => inl e
  | inr rgba => build name rgba
  end.

Definition split_alpha_colormap (name hexcolor : string) : error + Colormap :=
  colormap name [inl (hexcolor +:+ "00"); inl (hexcolor +:+ "ff");
                 inl (hexcolor +:+ "00")].

End Parse.

(** For the examples: the value of a string of hexadecimal digits. *)
Definition hex_digit (c : Ascii.ascii) : option Z :=
  let n := Z.of_N (Ascii.N_of_ascii c) in
  if bool_decide (48 ≤ n ≤ 57)%Z then Some (n - 48)%Z
  else if bool_decide (97 ≤ n ≤ 102)%Z then Some (n - 87)%Z
  else if bool_decide (65 ≤ n ≤ 70)%Z then Some (n - 55)%Z
  else None.

Fixpoint hex_value (acc : Z) (s : string) : option Z :=
  match s with
  | EmptyString => Some acc
  | String c s' =>
      match hex_digit c with
      | Some d => hex_value (16 * acc + d)%Z s'
      | None => None
      end
  end.

Definition sample_int16 (s : string) : option Z :=
  match s with
  | EmptyString => None
  | _ => hex_value 0 s
  end.

End Colors.

(** *** The result of [utils.groupby] *)

Module Utils.

(** [list(groupby(d, cols))]: each key as the pairs of an [OrderedDict], of
    the columns and the values of the key, with its group. *)
Definition groupby (d : DataFrame) (cols : list string)
  : result (list (list (string * value) * DataFrame)) :=
  gs ← groupby d cols;
  Ok ((λ k, (zip cols k, get_group gs k)) <$> group_keys gs).

End Utils.

(** *** The name of a cache entry *)

Module EntryName.

(** Text as its characters. *)
Definition text : Type := list Ascii.ascii.

Definition chars (s : string) : text := String.list_ascii_of_string s.

Definition code (c : Ascii.ascii) : N := Ascii.N_of_ascii c.

(** The class [[-_.a-zA-Z0-9]] *)
Definition word_char (c : Ascii.ascii) : bool :=
  let n := code c in
  ((n =? 45) || (n =? 95) || (n =? 46)
   || ((97 <=? n) && (n <=? 122)) || ((65 <=? n) && (n <=? 90))
   || ((48 <=? n) && (n <=? 57)))%N.

(** [re.findall(r"[-_.a-zA-Z0-9]+", s)]: the maximal runs of characters of
    the class, from left to right; [run] is the run that is being read. *)
Fixpoint findall (run : text) (s : text) : list text :=
  match s with
  | [] => match run with [] => [] | _ => [run] end
  | c :: s' =>
      if word_char c then findall (run ++ [c]) s'
      else match run with [] => [] | _ => [run] end ++ findall [] s'
  end.

(** ["".join(re.findall(r"[-_.a-zA-Z0-9]+", qualname))] *)
Definition name (qualname : text) : text := concat (findall [] qualname).

(** The alphabet of [base64.urlsafe_b64encode] *)
Definition alphabet : text :=
  chars "ABCDEFGHIJKLMNOPQRSTUVWXYZabcdefghijklmnopqrstuvwxyz0123456789-_".

Definition digit (n : N) : Ascii.ascii :=
  nth (N.to_nat n) alphabet (Ascii.ascii_of_N 65).

Definition pad : Ascii.ascii := Ascii.ascii_of_N 61.

(** [base64.urlsafe_b64encode(digest).decode("ascii")] *)
Fixpoint urlsafe_b64encode (bs : list Byte.byte) : text :=
  match bs with
  | [] => []
  | [a] =>
      let a := Byte.to_N a in
      [digit (N.shiftr a 2); digit (N.shiftl (N.land a 3) 4); pad; pad]
  | [a; b] =>
      let a := Byte.to_N a in
      let b := Byte.to_N b in
      [digit (N.shiftr a 2);
       digit (N.lor (N.shiftl (N.land a 3) 4) (N.shiftr b 4));
       digit (N.shiftl (N.land b 15) 2); pad]
  | a :: b :: c :: bs' =>
      let a := Byte.to_N a in
      let b := Byte.to_N b in
      let c := Byte.to_N c in
      [digit (N.shiftr a 2);
       digit (N.lor (N.shiftl (N.land a 3) 4) (N.shiftr b 4));
       digit (N.lor (N.shiftl (N.land b 15) 2) (N.shiftr c 6));
       digit (N.land c 63)] ++ urlsafe_b64encode bs'
  end.

(** [h.strip("=")] *)
Fixpoint lstrip (s : text) : text :=
  match s with
  | [] => []
  | c :: s' => if bool_decide (c = pad) then lstrip s' else s
  end.

Definition strip (s : text) : text := reverse (lstrip (reverse (lstrip s))).

(** ["{}_{}.cache~".format(name, h.strip("="))] *)
Definition entry (qualname : text) (digest : list Byte.byte) : text :=
  name qualname ++ chars "_" ++ strip (urlsafe_b64encode digest)
    ++ chars ".cache~".

(** [os.path.join(dir, file)] on a POSIX system *)
Definition join (dir file : text) : text :=
  match file with
  | c :: _ =>
      if bool_decide (code c = 47%N) then file
      else match last dir with
           | None => file
           | Some d => if bool_decide (code d = 47%N) then dir ++ file
                       else dir ++ chars "/" ++ file
           end
  | [] => match last dir with
          | None => []
          | Some d => if bool_decide (code d = 47%N) then dir
                      else dir ++ chars "/"
          end
  end.

(** The path of the entry of a call with the digest [digest] of its bound
    arguments. *)
Definition path (dir qualname : text) (digest : list Byte.byte) : text :=
  join dir (entry qualname digest).


End EntryName.

(** Modification times for the examples: of two files, in seconds. *)
Definition sample_mtime (path : string) : result Z :=
  if bool_decide (path = "ground-sarah.txt") then Ok 1500000000%Z
  else if bool_decide (path = "imsrg-qdpt/ground.txt") then Ok 1500000100%Z
  else Raise OSError.

(** ** Part II: properties *)

(** *** The [result] monad *)

Lemma bind_Ok {A B} (m : result A) (f : A → result B) (b : B) :
  m ≫= f = Ok b ↔ ∃ a, m = Ok a ∧ f a = Ok b.
Proof.
  destruct m as [a|e]; simpl.
  - split; [eauto | by intros (? & [= <-] & ?)].
  - split; [done | by intros (? & ? & ?)].
Qed.

Lemma bind_Raise {A B} (m : result A) (f : A → result B) (e : exn) :
  m ≫= f = Raise e ↔ m = Raise e ∨ ∃ a, m = Ok a ∧ f a = Raise e.
Proof.
  destruct m as [a|e']; simpl.
  - split; [eauto | by intros [? | (? & [= <-] & ?)]].
  - split; [intros [= ->]; by left | by intros [[= ->] | (? & ? & ?)]].
Qed.

Lemma fmap_Ok {A B} (m : result A) (f : A → B) (b : B) :
  f <$> m = Ok b ↔ ∃ a, m = Ok a ∧ b = f a.
Proof.
  destruct m as [a|e]; simpl.
  - split; [by intros [= <-]; eauto | by intros (? & [= <-] & ->)].
  - split; [done | by intros (? & ? & ?)].
Qed.

Lemma traverse_Ok {A B} (f : A → result B) (l : list A) (l' : list B) :
  traverse f l = Ok l' ↔ Forall2 (λ x y, f x = Ok y) l l'.
Proof.
  revert l'. induction l as [|x l IH]; intros l'; simpl.
  - split; [by intros [= <-] | by inversion 1].
  - rewrite bind_Ok. split.
    + intros (y & Hy & Hr). apply bind_Ok in Hr as (ys & Hys & [= <-]).
      constructor; [done | by apply IH].
    + inversion 1 as [|? y ? ys Hy Hys]; subst. exists y. split; [done |].
      apply IH in Hys. by rewrite Hys.
Qed.

Lemma traverse_Raise {A B} (f : A → result B) (l : list A) (e : exn) :
  traverse f l = Raise e → ∃ x, x ∈ l ∧ f x = Raise e.
Proof.
  induction l as [|x l IH]; simpl; [done |].
  rewrite bind_Raise. intros [Hx | (y & Hy & Hr)].
  - exists x. split; [left | done].
  - apply bind_Raise in Hr as [Hr | (ys & _ & [=])].
    destruct (IH Hr) as (x' & ? & ?). exists x'. split; [by right | done].
Qed.


(** *** [FileDeps] *)

(** C3. Resolving a path against the declared set fails exactly when the
    path is not declared, and returns the path itself exactly when it is. *)
Theorem getitem_fails_iff_undeclared (D : FileDeps.t) (p : string) :
  (raises (FileDeps.getitem D p) ↔ p ∉ FileDeps._paths D)
  ∧ (FileDeps.getitem D p = Ok p ↔ p ∈ FileDeps._paths D).
Proof.
  unfold FileDeps.getitem, raises. case_bool_decide as Hp.
  - split; split; [done | eauto | done | done].
  - split; split; [by intros [? ?] | done | done | done].
Qed.

Lemma getitem_undeclared_error (D : FileDeps.t) (p : string) (e : exn) :
  FileDeps.getitem D p = Raise e →
  e = ValueError ("undeclared dependency: " +:+ p).
Proof. unfold FileDeps.getitem. case_bool_decide; congruence. Qed.

Example getitem_declared :
  FileDeps.getitem (FileDeps.init ["ground-sarah.txt"; "imsrg-qdpt/ground.txt"])
                   "imsrg-qdpt/ground.txt"
  = Ok "imsrg-qdpt/ground.txt".
Proof. vm_compute. reflexivity. Qed.

Example getitem_undeclared :
  FileDeps.getitem (FileDeps.init ["ground-sarah.txt"]) "QD_CCSD_PA.dat"
  = Raise (ValueError "undeclared dependency: QD_CCSD_PA.dat").
Proof. vm_compute. reflexivity. Qed.

(** *** The cache files *)

Lemma append_tmp_ne (s : string) : s +:+ ".tmp" ≠ s.
Proof. induction s as [|a s IH]; simpl; [done | by intros [= ?]]. Qed.

(** [save_json] is what an atomic replacement of a file looks like: at every
    moment the file [fn] is either what it was or complete. *)
Lemma save_json_atomic (st st' : files) (fn : string) (data : bytes) :
  st' ∈ observable st (save_json fn data) →
  st' !! fn = st !! fn ∨ st' !! fn = Some data.
Proof.
  pose proof (append_tmp_ne fn) as Hne.
  unfold observable, save_json. simpl.
  rewrite !elem_of_cons, elem_of_nil. intros [-> | [-> | [-> | []]]].
  - left. unfold fs_run. simpl. by simplify_map_eq.
  - left. unfold fs_run. simpl. by simplify_map_eq.
  - right. unfold fs_run. simpl. by simplify_map_eq.
Qed.

Section CachedProperties.

Context {Args Res : Type}.
Variable dir : string.
Variable cache_path : Args → result string.
Variable dump : Res → result bytes.
Variable load : bytes → result Res.
Variable func : Args → result Res.

(** A hit: the stored result is returned, the function is not called and
    no file is touched. *)
Lemma wrapper_hit st args path b r :
  cache_path args = Ok path → st !! path = Some b → load b = Ok r →
  wrapper dir cache_path dump load func st args = (Ok r, []).
Proof.
  intros Hp Hb Hl. unfold wrapper, read_entry.
  by rewrite Hp, Hb, Hl.
Qed.

(** An entry that cannot be opened, or whose deserialization raises
    [UnpicklingError], is a miss. *)
Lemma wrapper_miss st args path e r data :
  cache_path args = Ok path → read_entry load st path = Raise e →
  caught e = true → func args = Ok r → dump r = Ok data →
  wrapper dir cache_path dump load func st args
  = (Ok r, [Makedirs dir; OpenWrite path; Write path data]).
Proof.
  intros Hp He Hc Hf Hd. unfold wrapper.
  by rewrite Hp, He, Hc, Hf, Hd.
Qed.

(** C2 (the code against the claim). On a miss the wrapper opens the entry
    itself for writing and writes the result into it: nothing is renamed,
    and between the two steps the entry exists and is empty, which is not
    the serialized result. *)
Theorem cached_miss_writes_entry_in_place st args path e r data :
  cache_path args = Ok path → read_entry load st path = Raise e →
  caught e = true → func args = Ok r → dump r = Ok data → data ≠ [] →
  (∀ src dst, Rename src dst ∉ (wrapper dir cache_path dump load func st args).2)
  ∧ (∃ st',
       st' ∈ observable st (wrapper dir cache_path dump load func st args).2
            ∧ st' !! path = Some [] ∧ st' !! path ≠ Some data)
  ∧ fs_run st (wrapper dir cache_path dump load func st args).2 !! path = Some data.
Proof.
  intros Hp He Hc Hf Hd Hne.
  rewrite (wrapper_miss st args path e r data) by done. simpl.
  split; [| split].
  - intros src dst. rewrite !elem_of_cons, elem_of_nil.
    by intros [? | [? | [? | []]]].
  - exists (fs_run st [Makedirs dir; OpenWrite path]). split; [| split].
    + unfold observable. simpl. rewrite !elem_of_cons. auto.
    + unfold fs_run. simpl. by simplify_map_eq.
    + unfold fs_run. simpl. simplify_map_eq. by intros [= <-].
  - unfold fs_run. simpl. by simplify_map_eq.
Qed.

(** An exception of [load] that the [except] clause does not name leaves
    the wrapper. *)
Lemma wrapper_surfaces_uncaught st args path b e :
  cache_path args = Ok path → st !! path = Some b → load b = Raise e →
  caught e = false →
  wrapper dir cache_path dump load func st args = (Raise e, []).
Proof.
  intros Hp Hb Hl Hc. unfold wrapper, read_entry.
  by rewrite Hp, Hb, Hl, Hc.
Qed.

(** C4 (the code against the claim). An entry on which the deserializer
    raises [EOFError], as [pickle.load] does on an empty or truncated file,
    is not treated as a miss: the function is not called and the caller
    gets the [EOFError]. *)
Theorem cached_truncated_entry_raises st args path b :
  cache_path args = Ok path → st !! path = Some b →
  load b = Raise EOFError →
  wrapper dir cache_path dump load func st args = (Raise EOFError, []).
Proof. intros. by eapply wrapper_surfaces_uncaught. Qed.

End CachedProperties.

Lemma cached_miss_writes_entry_in_place_witness :
  let w := wrapper ".cache" sample_path sample_dump sample_load
             (λ _, Ok Byte.x2a) ∅ tt in
  (∀ src dst, Rename src dst ∉ w.2)
  ∧ (∃ st', st' ∈ observable ∅ w.2
       ∧ st' !! ".cache/load_addrm_2jmj7l5rSw0yVb_vlWAYkK_YBwk.cache~"
         = Some []
       ∧ st' !! ".cache/load_addrm_2jmj7l5rSw0yVb_vlWAYkK_YBwk.cache~"
         ≠ Some [Byte.x2a])
  ∧ fs_run ∅ w.2 !! ".cache/load_addrm_2jmj7l5rSw0yVb_vlWAYkK_YBwk.cache~"
    = Some [Byte.x2a].
Proof.
  apply (cached_miss_writes_entry_in_place ".cache" sample_path sample_dump
           sample_load (λ _, Ok Byte.x2a) ∅ tt
           ".cache/load_addrm_2jmj7l5rSw0yVb_vlWAYkK_YBwk.cache~"
           OSError Byte.x2a [Byte.x2a]);
    [reflexivity | reflexivity | reflexivity | reflexivity | reflexivity
    | discriminate].
Defined.

Lemma cached_truncated_entry_raises_witness :
  wrapper ".cache" sample_path sample_dump sample_load (λ _, Ok Byte.x2a)
    {[".cache/load_addrm_2jmj7l5rSw0yVb_vlWAYkK_YBwk.cache~" := []]} tt
  = (Raise EOFError, []).
Proof.
  apply (cached_truncated_entry_raises ".cache" sample_path sample_dump
           sample_load (λ _, Ok Byte.x2a) _ tt
           ".cache/load_addrm_2jmj7l5rSw0yVb_vlWAYkK_YBwk.cache~" []);
    [reflexivity | reflexivity | reflexivity].
Defined.

(** *** Columns and group-by *)

Lemma require_columns_Ok (d : DataFrame) (cs : list string) :
  require_columns d cs = Ok tt ↔ ∀ c, c ∈ cs → c ∈ columns d.
Proof.
  unfold require_columns.
  destruct (filter (λ c, c ∉ columns d) cs) as [|c l] eqn:Hf.
  - split; [| done]. intros _ c Hc.
    destruct (decide (c ∈ columns d)) as [|Hn]; [done |].
    assert (c ∈ filter (λ c, c ∉ columns d) cs) as Hin
      by (by apply list_elem_of_filter).
    rewrite Hf in Hin. by apply elem_of_nil in Hin.
  - split; [done |]. intros H.
    assert (c ∈ filter (λ c, c ∉ columns d) cs) as Hin
      by (rewrite Hf; left).
    apply list_elem_of_filter in Hin as [Hn Hc]. destruct Hn. by apply H.
Qed.

Lemma require_columns_Raise (d : DataFrame) (cs : list string) (e : exn) :
  require_columns d cs = Raise e → ∃ c, e = KeyError c.
Proof.
  unfold require_columns.
  destruct (filter _ cs); [done |]. intros [= <-]. eauto.
Qed.

Lemma groupby_Ok (d : DataFrame) (cols : list string) (gs : GroupBy) :
  groupby d cols = Ok gs ↔
  gs = mkGroupBy d cols ∧ cols ≠ [] ∧ ∀ c, c ∈ cols → c ∈ columns d.
Proof.
  unfold groupby. destruct cols as [|c cols].
  { split; [done | by intros (_ & ? & _)]. }
  destruct (require_columns d (c :: cols)) as [[]|e] eqn:Hr; simpl.
  - pose proof (proj1 (require_columns_Ok _ _) Hr) as Hc.
    split; [by intros [= <-] | by intros (-> & _)].
  - split; [done |]. intros (_ & _ & H).
    apply (proj2 (require_columns_Ok _ _)) in H. congruence.
Qed.

Lemma groupby_Raise (d : DataFrame) (cols : list string) (e : exn) :
  groupby d cols = Raise e → is_fun_dep_violation e = false.
Proof.
  unfold groupby. destruct cols as [|c cols]; [by intros [= <-] |].
  destruct (require_columns d (c :: cols)) as [[]|e'] eqn:Hr; simpl; [done |].
  intros [= <-]. by apply require_columns_Raise in Hr as [? ->].
Qed.

(** *** [check_fun_dep] on the empty table *)




(** *** The check for missing values *)

(** C8. On a table that is not empty and has a missing value in a key column
    or in a column with a tolerance, [check_fun_dep] raises one error, which
    is not a [FunDepViolationError] and does not depend on the combiner:
    neither the groups nor the combiner are consulted. *)
Theorem check_fun_dep_null_fails
    (il : DataFrame → DataFrame → bool) (d : DataFrame) (cols : list string)
    (tolers : list (string * Qc)) :
  len d ≠ 0 →
  (∃ c r, c ∈ cols ++ tolers.*1 ∧ r ∈ rows d ∧ cell r c = VNull) →
  ∃ e, is_fun_dep_violation e = false
       ∧ ∀ combiner, check_fun_dep il d cols tolers combiner = Raise e.
Proof.
  intros Hlen (c & r & Hc & Hr & Hnull). unfold check_fun_dep.
  destruct (groupby d cols) as [gs|e] eqn:Hg; simpl.
  - rewrite bool_decide_eq_false_2 by done.
    destruct (require_columns d (cols ++ tolers.*1)) as [[]|e] eqn:Hrc; simpl.
    + assert (existsb (λ r, existsb (λ c, isnull (cell r c)) (cols ++ tolers.*1))
                      (rows d) = true) as ->.
      { apply existsb_exists. exists r. split; [by apply list_elem_of_In |].
        apply existsb_exists. exists c. split; [by apply list_elem_of_In |].
        by rewrite Hnull. }
      by exists (ValueError "input columns must not contain NaN").
    + apply require_columns_Raise in Hrc as [c' ->]. by exists (KeyError c').
  - exists e. split; [by eapply groupby_Raise | done].
Qed.

Lemma check_fun_dep_null_fails_witness :
  ∃ e, is_fun_dep_violation e = false
       ∧ ∀ combiner,
           check_fun_dep index_equals
             (of_rows ["freq"; "energy"]
                [{["freq" := VNum 1%Qc; "energy" := VNull]}])
             ["freq"] [("energy", 0%Qc)] combiner
           = Raise e.
Proof.
  apply (check_fun_dep_null_fails index_equals
           (of_rows ["freq"; "energy"]
              [{["freq" := VNum 1%Qc; "energy" := VNull]}])
           ["freq"] [("energy", 0%Qc)]).
  - discriminate.
  - exists "energy", {["freq" := VNum 1%Qc; "energy" := VNull]}.
    split; [| split].
    + simpl. apply list_elem_of_In. simpl. auto.
    + simpl. apply list_elem_of_In. simpl. auto.
    + reflexivity.
Defined.

(** *** The dependency check *)

Lemma Qc_square_lt (a b : Qc) :
  (0 ≤ a)%Qc → (0 ≤ b)%Qc → (a * a < b * b)%Qc ↔ (a < b)%Qc.
Proof.
  intros Ha Hb. split.
  - intros Hlt. destruct (Qclt_le_dec a b) as [|Hle]; [done |].
    exfalso. apply (Qclt_not_le _ _ Hlt).
    apply (Qcle_trans _ (a * b)).
    + by apply Qcmult_le_mono_nonneg_r.
    + by apply Qcmult_le_mono_nonneg_l.
  - intros Hlt. apply (Qcle_lt_trans _ (a * b)).
    + apply Qcmult_le_mono_nonneg_l; [done | by apply Qclt_le_weak].
    + apply Qcmult_lt_compat_r; [| done]. exact (Qcle_lt_trans _ _ _ Ha Hlt).
Qed.

(** Where the standard deviation is a rational [s], [std_gt] decides
    [s > tol]. *)
Lemma std_gt_exact (s tol : Qc) :
  (0 ≤ s)%Qc → std_gt (s * s) tol = true ↔ (tol < s)%Qc.
Proof.
  intros Hs. unfold std_gt. rewrite orb_true_iff, !bool_decide_eq_true.
  destruct (Qclt_le_dec tol 0) as [Hneg|Hpos].
  - split; [| by left]. intros _. by eapply Qclt_le_trans.
  - rewrite Qc_square_lt by done. split; [| by right].
    intros [Hneg | ?]; [| done]. by destruct (Qclt_not_le _ _ Hneg).
Qed.

(** The standard deviation of 10.0 and 10.05 is 0.025. *)
Example variance_two_sources :
  variance [Q2Qc (10 # 1); Q2Qc (1005 # 100)]
  = (Q2Qc (1 # 40) * Q2Qc (1 # 40))%Qc.
Proof. apply Qc_is_canon. vm_compute. reflexivity. Qed.

Lemma bind_Ok_l {A B} (a : A) (f : A → result B) : Ok a ≫= f = f a.
Proof. reflexivity. Qed.










Lemma null_check_passes (d : DataFrame) (cs : list string) :
  (∀ c, c ∈ cs → ∀ r, r ∈ rows d → cell r c ≠ VNull) →
  existsb (λ r, existsb (λ c, isnull (cell r c)) cs) (rows d) = false.
Proof.
  intros H. apply not_true_is_false. intros Hex.
  apply existsb_exists in Hex as (r & Hr & Hex).
  apply existsb_exists in Hex as (c & Hc & Hnull).
  apply list_elem_of_In in Hr, Hc. specialize (H c Hc r Hr).
  by destruct (cell r c).
Qed.











(** The example of the specification: within a tolerance of 0.1 the two
    records pass, within 0.01 they are the violation. *)
Example check_fun_dep_two_sources_pass :
  check_fun_dep index_equals two_sources ["k"] [("c", Q2Qc (1 # 10))] None
  = Ok two_sources.
Proof. vm_compute. reflexivity. Qed.

Example check_fun_dep_two_sources_fail :
  check_fun_dep index_equals two_sources ["k"] [("c", Q2Qc (1 # 100))] None
  = Raise (FunDepViolationError ["k"] ["c"] two_sources).
Proof. vm_compute. reflexivity. Qed.

(** *** The order of cells *)

Lemma string_compare_trans (a b c : string) :
  String.compare a b = Lt → String.compare b c = Lt → String.compare a c = Lt.
Proof.
  revert b c. induction a as [|x a IH]; intros [|y b] [|z c]; simpl; try done.
  unfold Ascii.compare.
  destruct (N.compare_spec (Ascii.N_of_ascii x) (Ascii.N_of_ascii y))
    as [Hxy|Hxy|Hxy];
  destruct (N.compare_spec (Ascii.N_of_ascii y) (Ascii.N_of_ascii z))
    as [Hyz|Hyz|Hyz];
  try done; intros H1 H2.
  - rewrite Hxy, Hyz, N.compare_refl. eauto.
  - rewrite Hxy. by rewrite (proj2 (N.compare_lt_iff _ _) Hyz).
  - rewrite <- Hyz. by rewrite (proj2 (N.compare_lt_iff _ _) Hxy).
  - by rewrite (proj2 (N.compare_lt_iff _ _) (N.lt_trans _ _ _ Hxy Hyz)).
Qed.

Lemma string_leb_trans (a b c : string) :
  String.leb a b = true → String.leb b c = true → String.leb a c = true.
Proof.
  unfold String.leb.
  destruct (String.compare a b) eqn:Hab; [| |done];
  destruct (String.compare b c) eqn:Hbc; try done; intros _ _.
  - apply String.compare_eq_iff in Hab, Hbc. subst.
    pose proof (String.compare_antisym c c) as E.
    by destruct (String.compare c c).
  - apply String.compare_eq_iff in Hab. subst. by rewrite Hbc.
  - apply String.compare_eq_iff in Hbc. subst. by rewrite Hab.
  - by rewrite (string_compare_trans a b c).
Qed.

Lemma value_leb_total (a b : value) :
  value_leb a b = true ∨ value_leb b a = true.
Proof.
  destruct a as [x|s|], b as [y|t|]; simpl; auto.
  - destruct (Qclt_le_dec x y) as [H|H].
    + left. apply bool_decide_eq_true. by apply Qclt_le_weak.
    + right. by apply bool_decide_eq_true.
  - apply String.leb_total.
Qed.

Lemma value_leb_refl (a : value) : value_leb a a = true.
Proof. by destruct (value_leb_total a a). Qed.

Lemma value_leb_trans (a b c : value) :
  value_leb a b = true → value_leb b c = true → value_leb a c = true.
Proof.
  destruct a as [x|s|], b as [y|t|], c as [z|u|]; simpl; try done.
  - rewrite !bool_decide_eq_true. apply Qcle_trans.
  - apply string_leb_trans.
Qed.

Lemma value_leb_antisym (a b : value) :
  value_leb a b = true → value_leb b a = true → a = b.
Proof.
  destruct a as [x|s|], b as [y|t|]; simpl; try done.
  - rewrite !bool_decide_eq_true. intros. f_equal. by apply Qcle_antisym.
  - intros. f_equal. by apply String.leb_antisym.
Qed.

Lemma value_leb_null (a : value) : value_leb a VNull = true → a = VNull.
Proof. by destruct a. Qed.

(** *** [max] *)

Lemma series_max_upper (vs : list value) (v : value) :
  v ∈ vs → value_leb v (series_max vs) = true.
Proof.
  induction vs as [|a vs IH]; [by intros ?%elem_of_nil |].
  simpl. unfold value_max.
  destruct (value_leb a (series_max vs)) eqn:Ha;
    intros [-> | Hv]%elem_of_cons; auto using value_leb_refl.
  destruct (value_leb_total a (series_max vs)) as [|Hm]; [congruence |].
  eapply value_leb_trans; [by apply IH | done].
Qed.

Lemma series_max_elem (vs : list value) :
  series_max vs = VNull ∨ series_max vs ∈ vs.
Proof.
  induction vs as [|a vs IH]; [by left |]. simpl. unfold value_max.
  destruct (value_leb a (series_max vs)).
  - destruct IH as [-> | IH]; [by left | right; by right].
  - right; left.
Qed.

Lemma series_max_ext (vs1 vs2 : list value) :
  (∀ v, v ∈ vs1 ↔ v ∈ vs2) → series_max vs1 = series_max vs2.
Proof.
  assert (∀ l1 l2 : list value, (∀ v, v ∈ l1 → v ∈ l2) →
            value_leb (series_max l1) (series_max l2) = true) as Hle.
  { intros l1 l2 Hsub. destruct (series_max_elem l1) as [-> | Hin]; [done |].
    by apply series_max_upper, Hsub. }
  intros H. apply value_leb_antisym; apply Hle; intros v; apply H.
Qed.

(** *** [drop_duplicates] *)

Lemma same_record_refl (cols : gset string) (r : row) : same_record cols r r.
Proof. by intros c _. Qed.

Lemma same_record_sym (cols : gset string) (r1 r2 : row) :
  same_record cols r1 r2 → same_record cols r2 r1.
Proof. intros H c Hc. symmetry. by apply H. Qed.

Lemma same_record_trans (cols : gset string) (r1 r2 r3 : row) :
  same_record cols r1 r2 → same_record cols r2 r3 → same_record cols r1 r3.
Proof. intros H1 H2 c Hc. rewrite (H1 c Hc). by apply H2. Qed.

Lemma drop_dups_elem (cols : gset string) (es : list (nat * row))
    (e : nat * row) :
  e ∈ drop_dups cols es → e ∈ es.
Proof.
  induction es as [|a es IH]; simpl; [done |].
  intros [-> | [_ He]%list_elem_of_filter]%elem_of_cons; [left | right; auto].
Qed.

Lemma drop_dups_represents (cols : gset string) (es : list (nat * row))
    (e : nat * row) :
  e ∈ es → ∃ e', e' ∈ drop_dups cols es ∧ same_record cols e'.2 e.2.
Proof.
  induction es as [|a es IH]; [by intros ?%elem_of_nil |].
  intros [-> | He]%elem_of_cons; simpl.
  - exists a. split; [left | apply same_record_refl].
  - destruct (IH He) as (e' & He' & Hsame).
    destruct (decide (same_record cols a.2 e'.2)) as [Ha|Ha].
    + exists a. split; [left | by eapply same_record_trans].
    + exists e'. split; [| done]. right. by apply list_elem_of_filter.
Qed.

Lemma StronglySorted_filter {A} (R : relation A) (P : A → Prop)
    `{∀ x, Decision (P x)} (l : list A) :
  StronglySorted R l → StronglySorted R (filter P l).
Proof.
  induction 1 as [|a l Hl IH Ha]; [constructor |].
  rewrite filter_cons. destruct (decide (P a)); [| done].
  constructor; [done |]. apply Forall_forall.
  intros b [_ Hb]%list_elem_of_filter. by eapply Forall_forall in Ha.
Qed.

(** After [drop_duplicates] no two records are duplicates of each other. *)
Lemma drop_dups_distinct (cols : gset string) (es : list (nat * row)) :
  StronglySorted (λ a b, ¬ same_record cols a.2 b.2) (drop_dups cols es).
Proof.
  induction es as [|a es IH]; simpl; constructor.
  - by apply StronglySorted_filter.
  - apply Forall_forall. by intros b [Hb _]%list_elem_of_filter.
Qed.

(** *** [leftmost_combiner], [rightmost_combiner], [unique_combiner] *)

Lemma leftmost_combiner_first (d : DataFrame) (e : nat * row)
    (es : list (nat * row)) :
  entries d = e :: es → leftmost_combiner d = Ok (mkFrame (columns d) [e]).
Proof. unfold leftmost_combiner. by intros ->. Qed.

Lemma rightmost_combiner_last (d : DataFrame) (e : nat * row)
    (es : list (nat * row)) :
  entries d = es ++ [e] → rightmost_combiner d = Ok (mkFrame (columns d) [e]).
Proof. unfold rightmost_combiner. intros ->. by rewrite last_snoc. Qed.

Lemma unique_combiner_spec (d : DataFrame) :
  (raises (unique_combiner d) ↔ len d ≠ 1)
  ∧ (unique_combiner d = Ok d ↔ len d = 1).
Proof.
  unfold unique_combiner, raises. case_bool_decide as Hlen.
  - split; split; [done | eauto | done | done].
  - split; split; [by intros [? ?] | done | done | done].
Qed.

Example leftmost_two_sources :
  rows <$> leftmost_combiner two_sources
  = Ok [ {["k" := num 1 1; "c" := num 10 1]} ].
Proof. vm_compute. reflexivity. Qed.

Example rightmost_two_sources :
  rows <$> rightmost_combiner two_sources
  = Ok [ {["k" := num 1 1; "c" := num 1005 100]} ].
Proof. vm_compute. reflexivity. Qed.

Example unique_two_sources :
  unique_combiner two_sources = Raise (Exception "this group is not unique").
Proof. vm_compute. reflexivity. Qed.

(** *** [priority_combiner] *)

Lemma elem_of_priorities (d : DataFrame) (v : value) :
  v ∈ priorities d ↔ ∃ e, e ∈ entries d ∧ v = cell e.2 "priority".
Proof.
  unfold priorities, rows. rewrite list_elem_of_fmap. split.
  - intros (r & -> & (e & -> & He)%list_elem_of_fmap). by exists e.
  - intros (e & He & ->). exists e.2. split; [done |].
    by apply list_elem_of_fmap_2.
Qed.

Lemma priorities_drop_duplicates (d : DataFrame) :
  "priority" ∈ columns d →
  series_max (priorities (drop_duplicates d)) = series_max (priorities d).
Proof.
  intros Hcol. apply series_max_ext. intros v. rewrite !elem_of_priorities.
  split; intros (e & He & ->).
  - exists e. split; [exact (drop_dups_elem _ _ _ He) | done].
  - destruct (drop_dups_represents (columns d) _ _ He) as (e' & He' & Hsame).
    exists e'. split; [exact He' |]. symmetry. by apply Hsame.
Qed.

Lemma two_elements {A} (l : list A) (a b : A) :
  a ∈ l → b ∈ l → a ≠ b → 1 < length l.
Proof.
  destruct l as [|x [|y l]]; simpl; [by intros ?%elem_of_nil | | lia].
  by intros ->%list_elem_of_singleton ->%list_elem_of_singleton.
Qed.

Lemma priority_combiner_unfold (d : DataFrame) :
  "priority" ∈ columns d →
  priority_combiner d =
    let kept := filter (top_priority d) (drop_dups (columns d) (entries d)) in
    if bool_decide (1 < length kept)
    then Raise (Exception "cannot resolve data with equal priority")
    else Ok (mkFrame (columns d) kept).
Proof.
  intros Hcol. unfold priority_combiner, getcol.
  rewrite bool_decide_eq_true_2 by done. rewrite bind_Ok_l.
  fold (priorities (drop_duplicates d)).
  rewrite priorities_drop_duplicates by done. reflexivity.
Qed.

(** C5, amended. The combiner drops the duplicates and keeps the records of
    the largest priority.  It fails exactly when two records of the largest
    priority differ in some column; otherwise it returns at most one record,
    a record of the group with the largest priority, of which every other
    such record is a duplicate. *)
Theorem priority_combiner_spec (d : DataFrame) :
  "priority" ∈ columns d →
  (raises (priority_combiner d) ↔
     ∃ e1 e2, e1 ∈ entries d ∧ e2 ∈ entries d
              ∧ top_priority d e1 ∧ top_priority d e2
              ∧ ¬ same_record (columns d) e1.2 e2.2)
  ∧ (∀ d', priority_combiner d = Ok d' →
       columns d' = columns d
       ∧ (∀ e, e ∈ entries d' → e ∈ entries d ∧ top_priority d e)
       ∧ (∀ e, e ∈ entries d → top_priority d e →
               ∃ e', entries d' = [e']
                     ∧ same_record (columns d) e'.2 e.2)).
Proof.
  intros Hcol. rewrite priority_combiner_unfold by done. cbn zeta.
  set (D := drop_dups (columns d) (entries d)).
  set (kept := filter (top_priority d) D).
  assert (∀ a b : nat * row, same_record (columns d) a.2 b.2 →
            top_priority d a → top_priority d b) as Htop.
  { intros a b Hsame. unfold top_priority. by rewrite (Hsame "priority"). }
  assert (∀ e, e ∈ entries d → top_priority d e →
            ∃ e', e' ∈ kept ∧ same_record (columns d) e'.2 e.2) as Hrep.
  { intros e He Ht.
    destruct (drop_dups_represents (columns d) _ _ He) as (e' & He' & Hsame).
    exists e'. split; [| done]. apply list_elem_of_filter. split; [| done].
    eapply Htop; [| done]. by apply same_record_sym. }
  assert (StronglySorted (λ a b, ¬ same_record (columns d) a.2 b.2) kept)
    as Hdistinct by (apply StronglySorted_filter, drop_dups_distinct).
  case_bool_decide as Hlen.
  - split; [| done]. split; [| by eexists]. intros _.
    destruct kept as [|a [|b rest]] eqn:Hk; simpl in Hlen; [lia | lia |].
    assert (a ∈ kept ∧ b ∈ kept) as [Ha Hb].
    { rewrite Hk. split; [left | right; left]. }
    apply list_elem_of_filter in Ha as [Hta Ha], Hb as [Htb Hb].
    exists a, b. repeat split; [by eapply drop_dups_elem.. | done | done |].
    apply StronglySorted_inv in Hdistinct as [_ Hab].
    by apply Forall_inv in Hab.
  - split.
    + split; [by intros [? ?] |].
      intros (e1 & e2 & He1 & He2 & Ht1 & Ht2 & Hne). destruct Hlen.
      destruct (Hrep e1 He1 Ht1) as (a & Ha & Hsa).
      destruct (Hrep e2 He2 Ht2) as (b & Hb & Hsb).
      apply (two_elements kept a b); [done | done |]. intros ->.
      destruct Hne. eapply same_record_trans; [| done].
      by apply same_record_sym.
    + intros d' [= <-]. simpl. split; [done | split].
      * intros e [Ht He]%list_elem_of_filter.
        split; [by eapply drop_dups_elem | done].
      * intros e He Ht. destruct (Hrep e He Ht) as (e' & He' & Hsame).
        exists e'. split; [| done].
        destruct kept as [|x [|y rest]]; simpl in Hlen;
          [by apply elem_of_nil in He' | | lia].
        by apply list_elem_of_singleton in He' as ->.
Qed.

Lemma priority_combiner_spec_witness :
  (raises (priority_combiner priorities_02) ↔
     ∃ e1 e2, e1 ∈ entries priorities_02 ∧ e2 ∈ entries priorities_02
              ∧ top_priority priorities_02 e1 ∧ top_priority priorities_02 e2
              ∧ ¬ same_record (columns priorities_02) e1.2 e2.2)
  ∧ (∀ d', priority_combiner priorities_02 = Ok d' →
       columns d' = columns priorities_02
       ∧ (∀ e, e ∈ entries d' →
               e ∈ entries priorities_02 ∧ top_priority priorities_02 e)
       ∧ (∀ e, e ∈ entries priorities_02 → top_priority priorities_02 e →
               ∃ e', entries d' = [e']
                     ∧ same_record (columns priorities_02) e'.2 e.2)).
Proof.
  apply (priority_combiner_spec priorities_02). vm_compute. reflexivity.
Defined.

(** C5, as stated, fails: of three records with priorities 0, 2 and 2 of
    which the last two are duplicates, the one of priority 2 is returned. *)
Lemma priority_combiner_duplicates_counterexample :
  priorities priorities_022_duplicated = [num 0 1; num 2 1; num 2 1]
  ∧ priority_combiner priorities_022_duplicated
    = Ok (mkFrame (list_to_set ["energy"; "priority"])
            [(1, {["energy" := num 1001 1000; "priority" := num 2 1]})]).
Proof. split; vm_compute; reflexivity. Qed.

(** The examples of the specification, on records that differ. *)
Example priority_combiner_022 :
  priorities priorities_022 = [num 0 1; num 2 1; num 2 1]
  ∧ priority_combiner priorities_022
    = Raise (Exception "cannot resolve data with equal priority").
Proof. split; vm_compute; reflexivity. Qed.

Example priority_combiner_02 :
  priorities priorities_02 = [num 0 1; num 2 1]
  ∧ priority_combiner priorities_02
    = Ok (mkFrame (list_to_set ["energy"; "priority"])
            [(1, {["energy" := num 1001 1000; "priority" := num 2 1]})]).
Proof. split; vm_compute; reflexivity. Qed.

(** *** [GroupBy.apply] *)

Lemma reset_index_rows (d : DataFrame) : rows (reset_index d) = rows d.
Proof.
  unfold reset_index, rows at 1. simpl. apply snd_zip.
  unfold len, rows. rewrite length_seq, length_fmap. lia.
Qed.


Lemma get_group_entry (gs : GroupBy) (e : nat * row) :
  e ∈ entries (gb_obj gs) → VNull ∉ row_key (gb_by gs) e.2 →
  row_key (gb_by gs) e.2 ∈ group_keys gs
  ∧ e ∈ entries (get_group gs (row_key (gb_by gs) e.2)).
Proof.
  intros He Hnn. split.
  - unfold group_keys. rewrite merge_sort_Permutation.
    apply elem_of_remove_dups, list_elem_of_filter. split; [done |].
    apply list_elem_of_fmap_2. unfold rows. by apply list_elem_of_fmap_2.
  - unfold get_group. simpl. by apply list_elem_of_filter.
Qed.






(** *** [check_fun_dep] with and without a combiner *)


Lemma check_fun_dep_Ok
    (il : DataFrame → DataFrame → bool) (d out : DataFrame)
    (cols : list string) (tolers : list (string * Qc))
    (f : DataFrame → result DataFrame) :
  check_fun_dep il d cols tolers (Some f) = Ok out →
  (len d = 0 ∧ out = d)
  ∨ (len d ≠ 0
     ∧ (∀ c r, c ∈ cols → r ∈ rows d → cell r c ≠ VNull)
     ∧ ∃ out', apply il (mkGroupBy d cols) f = Ok out'
               ∧ out = reset_index out').
Proof.
  unfold check_fun_dep.
  destruct (groupby d cols) as [gs|e] eqn:Hg; [| done].
  apply groupby_Ok in Hg as (-> & _ & _). rewrite !bind_Ok_l.
  case_bool_decide as Hlen; [intros [= <-]; by left |].
  destruct (require_columns _ _) as [[]|e]; [| done]. rewrite !bind_Ok_l.
  destruct (existsb _ (rows d)) eqn:Hnull; [done |].
  destruct (traverse _ tolers) as [series|e]; [| done]. rewrite !bind_Ok_l.
  destruct (reduce_or series) as [mask|e]; [| done]. rewrite !bind_Ok_l.
  destruct (existsb snd mask); [by destruct (pd_concat _) |].
  intros (out' & Ha & ->)%fmap_Ok. right. split; [done |]. split; [| eauto].
  intros c r Hc Hr Hcell. apply not_true_iff_false in Hnull. destruct Hnull.
  apply existsb_exists. exists r. split; [by apply list_elem_of_In |].
  apply existsb_exists. exists c.
  split; [apply list_elem_of_In, elem_of_app; by left | by rewrite Hcell].
Qed.

(** *** Idempotence *)




(** Out of group order the outcome depends on how pandas tests the labels:
    where a result that was built anew never passes the test, the records
    come back in the order of the groups; where the labels are compared, they
    come back in the order of the input. *)
Example check_fun_dep_reorders :
  rows <$> check_fun_dep (λ _ _, false)
             (of_rows ["k"; "c"]
                [ {["k" := num 2 1; "c" := num 20 1]};
                  {["k" := num 1 1; "c" := num 10 1]} ])
             ["k"] [("c", Q2Qc (1 # 10))] (Some leftmost_combiner)
  = Ok [ {["k" := num 1 1; "c" := num 10 1]};
         {["k" := num 2 1; "c" := num 20 1]} ].
Proof. vm_compute. reflexivity. Qed.

Example check_fun_dep_keeps_order :
  rows <$> check_fun_dep index_equals
             (of_rows ["k"; "c"]
                [ {["k" := num 2 1; "c" := num 20 1]};
                  {["k" := num 1 1; "c" := num 10 1]} ])
             ["k"] [("c", Q2Qc (1 # 10))] (Some leftmost_combiner)
  = Ok [ {["k" := num 2 1; "c" := num 20 1]};
         {["k" := num 1 1; "c" := num 10 1]} ].
Proof. vm_compute. reflexivity. Qed.

(** *** The records that [apply] returns *)

Lemma Forall2_forallb_zip {A B} (P : A → B → Prop) (q : A → B → bool)
    (l : list A) (k : list B) :
  Forall2 P l k → forallb (λ ab, q ab.1 ab.2) (zip l k) = true →
  Forall2 (λ a b, P a b ∧ q a b = true) l k.
Proof.
  induction 1 as [|a b l k Hab Hlk IH]; simpl; [constructor |].
  intros [Hq Hrest]%andb_true_iff. constructor; auto.
Qed.


Lemma leftmost_combiner_entries (g r : DataFrame) (e : nat * row) :
  leftmost_combiner g = Ok r → e ∈ entries r → e ∈ entries g.
Proof.
  unfold leftmost_combiner. destruct (entries g) as [|e0 es]; [done |].
  intros [= <-] ->%list_elem_of_singleton. left.
Qed.

Lemma priority_combiner_entries (g r : DataFrame) (e : nat * row) :
  priority_combiner g = Ok r → e ∈ entries r → e ∈ entries g.
Proof.
  unfold priority_combiner. destruct (getcol _ _) as [p|]; [| done].
  rewrite bind_Ok_l. case_bool_decide; [done |]. intros [= <-]. simpl.
  intros [_ He]%list_elem_of_filter. by eapply drop_dups_elem.
Qed.


(** *** The merge pipelines *)

Lemma index_equals_sound : indexed_like_sound index_equals.
Proof. intros g r H. by apply bool_decide_eq_true in H. Qed.

Lemma cell_insert_ne (r : row) (c c' : string) (v : value) :
  c ≠ c' → cell (<[c := v]> r) c' = cell r c'.
Proof. intros Hne. unfold cell. by rewrite lookup_insert_ne. Qed.

Lemma cell_insert_eq (r : row) (c : string) (v : value) :
  cell (<[c := v]> r) c = v.
Proof. unfold cell. by rewrite lookup_insert_eq. Qed.

Lemma cell_delete_ne (r : row) (c c' : string) :
  c ≠ c' → cell (delete c r) c' = cell r c'.
Proof. intros Hne. unfold cell. by rewrite lookup_delete_ne. Qed.








(** *** Binary64: the square root in [p_to_n_ml_tms] *)

Section Binary64.

#[local] Open Scope Z_scope.

Lemma fexp_eq (e : Z) : fexp Float64.prec Float64.emax e = Z.max (e - 53) (-1074).
Proof. reflexivity. Qed.

Lemma digits2_pos_log2 (p : positive) :
  Zpos (digits2_pos p) = Z.log2 (Zpos p) + 1.
Proof.
  induction p as [p IH|p IH|]; [| |done].
  - change (Zpos (digits2_pos p~1)) with (Zpos (Pos.succ (digits2_pos p))).
    rewrite Pos2Z.inj_succ, IH.
    change (Zpos p~1) with (2 * Zpos p + 1). rewrite Z.log2_succ_double; lia.
  - change (Zpos (digits2_pos p~0)) with (Zpos (Pos.succ (digits2_pos p))).
    rewrite Pos2Z.inj_succ, IH.
    change (Zpos p~0) with (2 * Zpos p). rewrite Z.log2_double; lia.
Qed.

Lemma Zdigits2_log2 (z : Z) : 0 < z → Zdigits2 z = Z.log2 z + 1.
Proof. destruct z as [|p|p]; [lia | | lia]. intros _. apply digits2_pos_log2. Qed.

(** [z] has [d] binary digits *)
Lemma Zdigits2_bounds (z d : Z) : 2 ^ (d - 1) <= z < 2 ^ d → 0 < d → Zdigits2 z = d.
Proof.
  intros Hz Hd. assert (0 < z) by (pose proof (Z.pow_pos_nonneg 2 (d - 1)); lia).
  rewrite Zdigits2_log2 by done.
  rewrite (Z.log2_unique z (d - 1)); [lia | lia |].
  replace (Z.succ (d - 1)) with d by lia. done.
Qed.

Lemma iter_xO (m n : positive) : Zpos (Pos.iter xO m n) = Zpos m * 2 ^ Zpos n.
Proof.
  change (Pos.iter xO m n) with (Zpower.shift_pos n m).
  rewrite Zpower.shift_pos_correct. rewrite Zpower.Zpower_pos_nat, Zpower.Zpower_nat_Z, positive_nat_Z. lia.
Qed.

Lemma loc_of_shr_record_of_loc (m : Z) (l : location) :
  loc_of_shr_record (shr_record_of_loc m l) = l.
Proof. by destruct l as [|[]]. Qed.

Lemma shr_m_of_loc (m : Z) (l : location) : shr_m (shr_record_of_loc m l) = m.
Proof. by destruct l as [|[]]. Qed.

Lemma round_nearest_even_bounds (m : Z) (l : location) :
  round_nearest_even m l = m ∨ round_nearest_even m l = m + 1.
Proof. destruct l as [|[]]; simpl; auto. destruct (Z.even m); auto. Qed.

Lemma shr_fexp_53 (M e : Z) (l : location) :
  2 ^ 52 <= M < 2 ^ 53 → -1074 <= e →
  shr_fexp Float64.prec Float64.emax M e l = (shr_record_of_loc M l, e).
Proof.
  intros HM He. unfold shr_fexp.
  rewrite (Zdigits2_bounds M 53) by lia. rewrite fexp_eq.
  replace (Z.max (53 + e - 53) (-1074) - e) with 0 by lia. reflexivity.
Qed.

(** Rounding a mantissa of 53 digits at an exponent in range: the mantissa is
    rounded to an integer, and renormalized where that is [2 ^ 53]. *)
Lemma binary_round_aux_53 (M e : Z) (l : location) :
  2 ^ 52 <= M < 2 ^ 53 → -1074 <= e <= 970 →
  binary_round_aux Float64.prec Float64.emax false M e l =
    if round_nearest_even M l <? 2 ^ 53
    then S754_finite false (Z.to_pos (round_nearest_even M l)) e
    else S754_finite false (Z.to_pos (2 ^ 52)) (e + 1).
Proof.
  intros HM He. unfold binary_round_aux. rewrite shr_fexp_53 by lia.
  rewrite loc_of_shr_record_of_loc, shr_m_of_loc.
  set (Q := round_nearest_even M l).
  assert (Q = M ∨ Q = M + 1) as HQ by apply round_nearest_even_bounds.
  destruct (Z.ltb_spec Q (2 ^ 53)) as [Hlt|Hge].
  - rewrite shr_fexp_53 by lia. simpl shr_m.
    destruct Q as [|q|q] eqn:EQ; [lia | | lia].
    assert ((e <=? Float64.emax - Float64.prec) = true) as ->
      by (apply Z.leb_le; unfold Float64.emax, Float64.prec; lia).
    done.
  - assert (Q = 2 ^ 53) as -> by lia.
    assert (shr_fexp Float64.prec Float64.emax (2 ^ 53) e loc_Exact
            = ({| shr_m := 2 ^ 52; shr_r := false; shr_s := false |}, e + 1))
      as ->.
    { unfold shr_fexp. rewrite (Zdigits2_bounds (2 ^ 53) 54) by lia.
      rewrite fexp_eq. replace (Z.max (54 + e - 53) (-1074) - e) with 1 by lia.
      reflexivity. }
    cbn [shr_m]. change (2 ^ 52) with (Zpos (Z.to_pos (2 ^ 52))). cbv iota.
    assert ((e + 1 <=? Float64.emax - Float64.prec) = true) as ->
      by (apply Z.leb_le; unfold Float64.emax, Float64.prec; lia).
    done.
Qed.

Lemma shl_align_fst (mx : positive) (ex ex' : Z) :
  ex' <= ex → Zpos (fst (shl_align mx ex ex')) = Zpos mx * 2 ^ (ex - ex').
Proof.
  intros Hle. unfold shl_align. destruct (ex' - ex) as [|k|k] eqn:Hk; [| lia |].
  - replace (ex - ex') with 0 by lia. rewrite Z.pow_0_r. simpl. lia.
  - replace (ex - ex') with (Zpos k) by lia. simpl. by rewrite iter_xO.
Qed.

Lemma shl_align_snd (mx : positive) (ex ex' : Z) :
  ex' <= ex → snd (shl_align mx ex ex') = ex'.
Proof.
  intros Hle. unfold shl_align. destruct (ex' - ex) as [|k|k] eqn:Hk; simpl; lia.
Qed.

Lemma shl_align_ge (mx : positive) (ex ex' : Z) :
  ex <= ex' → shl_align mx ex ex' = (mx, ex).
Proof.
  intros Hle. unfold shl_align. destruct (ex' - ex) as [|k|k] eqn:Hk; [done | done | lia].
Qed.

(** Shifting out zeros. *)
Lemma shr_1_even (m : Z) :
  0 < m →
  shr_1 {| shr_m := 2 * m; shr_r := false; shr_s := false |}
  = {| shr_m := m; shr_r := false; shr_s := false |}.
Proof. destruct m as [|p|p]; [lia | | lia]. reflexivity. Qed.

Lemma iter_shr_1_exact (n : positive) (m : Z) :
  0 < m →
  SpecFloat.iter_pos shr_1 n {| shr_m := m * 2 ^ Zpos n; shr_r := false; shr_s := false |}
  = {| shr_m := m; shr_r := false; shr_s := false |}.
Proof.
  revert m. induction n as [n IH|n IH|]; intros m Hm.
  - pose proof (Z.pow_pos_nonneg 2 (Zpos n)) as Hpow. cbn [SpecFloat.iter_pos].
    replace (m * 2 ^ Zpos n~1) with (2 * ((m * 2 ^ Zpos n) * 2 ^ Zpos n)).
    2: { replace (Zpos n~1) with (Zpos n + Zpos n + 1) by lia.
         rewrite !Z.pow_add_r, Z.pow_1_r by lia. lia. }
    rewrite shr_1_even by nia. rewrite IH by nia. by apply IH.
  - pose proof (Z.pow_pos_nonneg 2 (Zpos n)) as Hpow. cbn [SpecFloat.iter_pos].
    replace (m * 2 ^ Zpos n~0) with ((m * 2 ^ Zpos n) * 2 ^ Zpos n).
    2: { replace (Zpos n~0) with (Zpos n + Zpos n) by lia.
         rewrite !Z.pow_add_r by lia. lia. }
    rewrite IH by nia. by apply IH.
  - cbn [SpecFloat.iter_pos]. replace (m * 2 ^ 1) with (2 * m) by lia. by apply shr_1_even.
Qed.

(** [binary_normalize] is exact on a number of at most 53 digits ... *)
Lemma binary_normalize_small (D dg e : Z) :
  2 ^ (dg - 1) <= D < 2 ^ dg → 0 < dg <= 53 → -1074 <= e + dg - 53 <= 970 →
  binary_normalize Float64.prec Float64.emax D e false
  = S754_finite false (Z.to_pos (D * 2 ^ (53 - dg))) (e + dg - 53).
Proof.
  intros HD Hdg He.
  assert (0 < D) by (pose proof (Z.pow_pos_nonneg 2 (dg - 1)); lia).
  destruct D as [|D'|D']; [lia | | lia]. unfold binary_normalize, binary_round.
  pose proof (Zdigits2_bounds (Zpos D') dg HD ltac:(lia)) as Hdig.
  change (Zdigits2 (Zpos D')) with (Zpos (digits2_pos D')) in Hdig.
  rewrite Hdig, fexp_eq.
  replace (Z.max (dg + e - 53) (-1074)) with (e + dg - 53) by lia.
  rewrite (surjective_pairing (shl_align _ _ _)).
  rewrite shl_align_snd, shl_align_fst by lia.
  replace (e - (e + dg - 53)) with (53 - dg) by lia.
  assert (2 ^ 52 <= Zpos D' * 2 ^ (53 - dg) < 2 ^ 53) as HM.
  { replace (2 ^ 52) with (2 ^ (dg - 1) * 2 ^ (53 - dg))
      by (rewrite <- Z.pow_add_r by lia; f_equal; lia).
    replace (2 ^ 53) with (2 ^ dg * 2 ^ (53 - dg))
      by (rewrite <- Z.pow_add_r by lia; f_equal; lia).
    pose proof (Z.pow_pos_nonneg 2 (53 - dg)). nia. }
  rewrite binary_round_aux_53 by lia. cbn [round_nearest_even].
  destruct (Z.ltb_spec (Zpos D' * 2 ^ (53 - dg)) (2 ^ 53)); [done | lia].
Qed.

(** ... and on a number of more digits whose low digits are zero. *)
Lemma binary_normalize_large (W n e : Z) :
  2 ^ 52 <= W < 2 ^ 53 → 0 < n → -1074 <= e + n <= 970 →
  binary_normalize Float64.prec Float64.emax (W * 2 ^ n) e false
  = S754_finite false (Z.to_pos W) (e + n).
Proof.
  intros HW Hn He. pose proof (Z.pow_pos_nonneg 2 n) as Hpow.
  assert (2 ^ (53 + n - 1) <= W * 2 ^ n < 2 ^ (53 + n)) as HD.
  { replace (53 + n - 1) with (52 + n) by lia. rewrite !Z.pow_add_r by lia. nia. }
  destruct (W * 2 ^ n) as [|D'|D'] eqn:ED; [nia | | nia].
  unfold binary_normalize, binary_round.
  pose proof (Zdigits2_bounds (Zpos D') (53 + n) HD ltac:(lia)) as Hdig.
  pose proof Hdig as Hdig'.
  change (Zdigits2 (Zpos D')) with (Zpos (digits2_pos D')) in Hdig'.
  rewrite Hdig', fexp_eq.
  replace (Z.max (53 + n + e - 53) (-1074)) with (e + n) by lia.
  rewrite shl_align_ge by lia.
  unfold binary_round_aux, shr_fexp. rewrite Hdig, fexp_eq.
  replace (Z.max (53 + n + e - 53) (-1074) - e) with n by lia.
  destruct n as [|n'|n']; [lia | | lia]. cbn [shr shr_record_of_loc].
  rewrite <- ED, iter_shr_1_exact by lia.
  cbn [loc_of_shr_record round_nearest_even shr_m].
  rewrite (Zdigits2_bounds W 53) by lia. rewrite fexp_eq.
  replace (Z.max (53 + (e + Zpos n') - 53) (-1074) - (e + Zpos n')) with 0 by lia.
  cbn [shr shr_record_of_loc shr_m].
  destruct W as [|w|w]; [lia | | lia].
  assert ((e + Zpos n' <=? Float64.emax - Float64.prec) = true) as ->
    by (apply Z.leb_le; unfold Float64.emax, Float64.prec; lia).
  done.
Qed.

Lemma binary_normalize_scaled (W0 dgW u e : Z) :
  2 ^ (dgW - 1) <= W0 < 2 ^ dgW → 0 < dgW <= 53 → 0 <= u →
  -1074 <= e + u + dgW - 53 <= 970 →
  binary_normalize Float64.prec Float64.emax (W0 * 2 ^ u) e false
  = S754_finite false (Z.to_pos (W0 * 2 ^ (53 - dgW))) (e + u + dgW - 53).
Proof.
  intros HW Hdg Hu He. pose proof (Z.pow_pos_nonneg 2 u).
  pose proof (Z.pow_pos_nonneg 2 (dgW - 1)).
  destruct (Z_le_gt_dec (dgW + u) 53) as [Hs|Hl].
  - rewrite (binary_normalize_small _ (dgW + u)); [| | lia | lia].
    + f_equal; [| lia]. f_equal. rewrite <- Z.mul_assoc, <- Z.pow_add_r by lia.
      do 2 f_equal. lia.
    + replace (dgW + u - 1) with (dgW - 1 + u) by lia.
      rewrite !Z.pow_add_r by lia. nia.
  - replace (W0 * 2 ^ u) with (W0 * 2 ^ (53 - dgW) * 2 ^ (dgW + u - 53)).
    2: { rewrite <- Z.mul_assoc, <- Z.pow_add_r by lia. do 2 f_equal. lia. }
    rewrite binary_normalize_large; [f_equal; lia | | lia | lia].
    replace (2 ^ 52) with (2 ^ (dgW - 1) * 2 ^ (53 - dgW))
      by (rewrite <- Z.pow_add_r by lia; f_equal; lia).
    replace (2 ^ 53) with (2 ^ dgW * 2 ^ (53 - dgW))
      by (rewrite <- Z.pow_add_r by lia; f_equal; lia).
    pose proof (Z.pow_pos_nonneg 2 (53 - dgW)). nia.
Qed.

Lemma log2_digits (z : Z) :
  0 < z → 2 ^ (Z.log2 z + 1 - 1) <= z < 2 ^ (Z.log2 z + 1).
Proof.
  intros Hz. replace (Z.log2 z + 1 - 1) with (Z.log2 z) by lia.
  replace (Z.log2 z + 1) with (Z.succ (Z.log2 z)) by lia.
  by apply Z.log2_spec.
Qed.

Lemma log2_lt_pow2 (z n : Z) : 0 < z < 2 ^ n → 0 <= n → Z.log2 z + 1 <= n.
Proof.
  intros Hz Hn. pose proof (Z.log2_lt_pow2 z n ltac:(lia)). lia.
Qed.

(** [float(m)] for [0 < m < 2 ^ 53] *)
Lemma of_int_small (m : Z) :
  0 < m < 2 ^ 53 →
  Float64.of_int m
  = Ok (S754_finite false (Z.to_pos (m * 2 ^ (53 - (Z.log2 m + 1))))
                    (Z.log2 m + 1 - 53)).
Proof.
  intros Hm. unfold Float64.of_int.
  pose proof (log2_lt_pow2 m 53 Hm ltac:(lia)). pose proof (Z.log2_nonneg m).
  rewrite (binary_normalize_small m (Z.log2 m + 1)); [| by apply log2_digits; lia | lia | lia].
  f_equal.
Qed.

(** The correctly rounded root is one of the two neighbours. *)
Lemma sqrt_faithful : Float64.faithful Float64.sqrt.
Proof.
  intros mx ex. unfold Float64.sqrt, Float64.sqrt_toward, SFsqrt.
  destruct (SFsqrt_core_binary _ _ _ _) as [[mz ez] lz] eqn:E.
  unfold SFsqrt_core_binary in E.
  destruct (Z.sqrtrem _) as [q r]. injection E as <- <- <-.
  destruct (r =? 0); [by left |]. destruct (r <=? q); [by left | by right].
Qed.

(** The square root of a double [M * 2 ^ (dg - 53)] whose mantissa has 53
    digits, for [1 <= dg <= 52]: the root of the mantissa, scaled by an even
    power of two, is taken and rounded. *)
Lemma sqrt_toward_finite (up : bool) (mz : positive) (dg : Z) :
  2 ^ 52 <= Zpos mz < 2 ^ 53 → 1 <= dg <= 52 →
  let t := 53 - Z.div2 (dg + 1) in
  ∃ l, Float64.sqrt_toward up (S754_finite false mz (dg - 53))
       = binary_round_aux Float64.prec Float64.emax false
           (Z.sqrt (Zpos mz * 2 ^ (dg - 53 + 2 * t))) (- t) l.
Proof.
  intros HM Hdg t. unfold Float64.sqrt_toward, SFsqrt_core_binary.
  rewrite (Zdigits2_bounds (Zpos mz) 53) by lia. rewrite fexp_eq.
  assert (Z.div2 (dg + 1) = 53 - t) as Ht by lia.
  assert (26 < t <= 52) as Htb.
  { rewrite Z.div2_div in Ht. pose proof (Z.div_mod (dg + 1) 2 ltac:(lia)).
    pose proof (Z.mod_pos_bound (dg + 1) 2 ltac:(lia)). lia. }
  replace (53 + (dg - 53) + 1) with (dg + 1) by lia. rewrite Ht.
  assert (Z.div2 (dg - 53) = - t + 26) as Ht'.
  { rewrite Z.div2_div in *. replace (dg - 53) with (dg + 1 + (-27) * 2) by lia.
    rewrite Z.div_add by lia. lia. }
  rewrite Ht'.
  replace (Z.min (Z.max (53 - t - 53) (-1074)) (- t + 26)) with (- t) by lia.
  assert (0 < dg - 53 - 2 * - t) as Hs.
  { rewrite Z.div2_div in Ht. pose proof (Z.div_mod (dg + 1) 2 ltac:(lia)).
    pose proof (Z.mod_pos_bound (dg + 1) 2 ltac:(lia)). lia. }
  destruct (dg - 53 - 2 * - t) as [|s|s] eqn:Es; [lia | | lia].
  rewrite Z.shiftl_mul_pow2 by lia.
  replace (dg - 53 + 2 * t) with (Zpos s) by lia.
  pose proof (Z.sqrtrem_sqrt (Zpos mz * 2 ^ Zpos s)) as Hq.
  destruct (Z.sqrtrem (Zpos mz * 2 ^ Zpos s)) as [q r]. simpl in Hq. subst q.
  by eexists.
Qed.

Lemma sqrt_finite pow_half (mz : positive) (dg : Z) :
  Float64.faithful pow_half →
  2 ^ 52 <= Zpos mz < 2 ^ 53 → 1 <= dg <= 52 →
  let t := 53 - Z.div2 (dg + 1) in
  ∃ l, pow_half (S754_finite false mz (dg - 53))
       = binary_round_aux Float64.prec Float64.emax false
           (Z.sqrt (Zpos mz * 2 ^ (dg - 53 + 2 * t))) (- t) l.
Proof.
  intros Hf HM Hdg t.
  destruct (Hf mz (dg - 53)) as [-> | ->]; by apply sqrt_toward_finite.
Qed.

Lemma one_eq : Float64.one = S754_finite false (Z.to_pos (2 ^ 52)) (-52).
Proof. reflexivity. Qed.

(** [int(x - 1)] for a double [x = mQ * 2 ^ eQ >= 1] with a fractional
    part: the subtraction is exact. *)
Lemma sub_one_to_int (mQ : positive) (eQ : Z) :
  -52 <= eQ <= -1 → Zpos mQ < 2 ^ 53 → 2 ^ (- eQ) <= Zpos mQ →
  Float64.to_int (Float64.sub (S754_finite false mQ eQ) Float64.one)
  = Ok (Zpos mQ / 2 ^ (- eQ) - 1).
Proof.
  intros He Hlt Hge. rewrite one_eq. unfold Float64.sub, SFsub.
  replace (Z.min eQ (-52)) with (-52) by lia. cbn [cond_Zopp].
  rewrite !shl_align_fst by lia.
  replace (-52 - -52) with 0 by lia. rewrite Z.pow_0_r, Z.mul_1_r.
  change (Zpos (Z.to_pos (2 ^ 52))) with (2 ^ 52).
  pose proof (Z.pow_pos_nonneg 2 (- eQ) ltac:(lia) ltac:(lia)) as Hp1.
  pose proof (Z.pow_pos_nonneg 2 (eQ - -52) ltac:(lia) ltac:(lia)) as Hp2.
  set (W0 := Zpos mQ - 2 ^ (- eQ)).
  replace (Zpos mQ * 2 ^ (eQ - -52) - 2 ^ 52) with (W0 * 2 ^ (eQ - -52)).
  2: { unfold W0. rewrite Z.mul_sub_distr_r, <- Z.pow_add_r by lia.
       do 2 f_equal. lia. }
  assert (Zpos mQ / 2 ^ (- eQ) - 1 = W0 / 2 ^ (- eQ)) as ->.
  { unfold W0. replace (Zpos mQ - 2 ^ (- eQ)) with (Zpos mQ + (-1) * 2 ^ (- eQ)) by lia.
    rewrite Z.div_add by lia. lia. }
  destruct (Z.eq_dec W0 0) as [-> | Hnz].
  { simpl. done. }
  assert (0 < W0 < 2 ^ 53) as HW by lia.
  pose proof (log2_lt_pow2 W0 53 HW ltac:(lia)). pose proof (Z.log2_nonneg W0).
  rewrite (binary_normalize_scaled W0 (Z.log2 W0 + 1));
    [| by apply log2_digits; lia | lia | lia | lia].
  unfold Float64.to_int.
  set (dg := Z.log2 W0 + 1) in *.
  destruct (-52 + (eQ - -52) + dg - 53) as [|k|k] eqn:Ek; [lia | lia |].
  rewrite Z.shiftr_div_pow2 by lia.
  pose proof (Z.pow_pos_nonneg 2 (53 - dg) ltac:(lia) ltac:(lia)) as Hp3.
  rewrite Z2Pos.id by nia.
  replace (Zpos k) with (- eQ + (53 - dg)) by lia.
  rewrite Z.pow_add_r by lia. rewrite Z.div_mul_cancel_r by lia. done.
Qed.

(** The root of [m] scaled by [4 ^ t], and its successor, stay within the
    multiples of [2 ^ t] that enclose the root of [m], when [t] is large
    against the size of the root. *)
Lemma sqrt_scaled_floor (m t Q : Z) :
  0 < m < 2 ^ 52 → 27 <= t →
  Q = Z.sqrt (m * 2 ^ (2 * t)) ∨ Q = Z.sqrt (m * 2 ^ (2 * t)) + 1 →
  Q / 2 ^ t = Z.sqrt m.
Proof.
  intros Hm Ht HQ.
  assert (2 ^ 27 <= 2 ^ t) as HT by (apply Z.pow_le_mono_r; lia).
  replace (2 ^ (2 * t)) with (2 ^ t * 2 ^ t) in HQ
    by (rewrite <- Z.pow_add_r by lia; f_equal; lia).
  set (T := 2 ^ t) in *. set (s := Z.sqrt m).
  set (q := Z.sqrt (m * (T * T))) in *.
  pose proof (Z.sqrt_spec m ltac:(lia)) as Hs. fold s in Hs. cbv zeta in Hs.
  pose proof (Z.sqrt_spec (m * (T * T)) ltac:(nia)) as Hq. fold q in Hq.
  cbv zeta in Hq. pose proof (Z.sqrt_nonneg m) as Hs0. fold s in Hs0.
  pose proof (Z.sqrt_nonneg (m * (T * T))) as Hq0. fold q in Hq0.
  assert (s < 2 ^ 26) as Hs26.
  { destruct (Z_lt_ge_dec s (2 ^ 26)) as [|Hge]; [done |].
    assert (2 ^ 26 * 2 ^ 26 <= s * s) by nia.
    change (2 ^ 26 * 2 ^ 26) with (2 ^ 52) in *. lia. }
  change (2 ^ 26) with 67108864 in Hs26. change (2 ^ 27) with 134217728 in HT.
  assert (s * T <= q) as Hlow.
  { destruct (Z_le_gt_dec (s * T) q) as [|Hgt]; [done |].
    assert ((q + 1) * (q + 1) <= (s * T) * (s * T)) by nia.
    assert ((s * T) * (s * T) <= m * (T * T)) by nia. lia. }
  assert (q + 1 < (s + 1) * T) as Hup.
  { destruct (Z_lt_ge_dec (q + 1) ((s + 1) * T)) as [|Hge]; [done |].
    assert (((s + 1) * T - 1) * ((s + 1) * T - 1) <= q * q) by nia.
    assert (m * (T * T) <= ((s + 1) * (s + 1) - 1) * (T * T)) by nia.
    assert (2 * (s + 1) * T <= T * T) by nia. nia. }
  symmetry. apply (Z.div_unique Q T s (Q - s * T)); [| lia].
  left. destruct HQ; subst Q; lia.
Qed.

Lemma int_sqrt_minus_one_exact pow_half (p : Z) :
  Float64.faithful pow_half →
  0 <= p < 2 ^ 50 →
  QuantumNumbers.int_sqrt_minus_one pow_half p = Ok (Z.sqrt (4 * p + 1) - 1).
Proof.
  intros Hf Hp. unfold QuantumNumbers.int_sqrt_minus_one.
  set (m := 4 * p + 1).
  assert (0 < m < 2 ^ 52) as Hm.
  { unfold m. change (2 ^ 52) with (4 * 2 ^ 50). lia. }
  rewrite of_int_small by (change (2 ^ 53) with (2 * 2 ^ 52); lia).
  rewrite bind_Ok_l. set (dg := Z.log2 m + 1).
  pose proof (log2_lt_pow2 m 52 Hm ltac:(lia)) as Hdg.
  pose proof (Z.log2_nonneg m) as Hdg0. fold dg in Hdg.
  pose proof (log2_digits m ltac:(lia)) as Hmd. fold dg in Hmd.
  pose proof (Z.pow_pos_nonneg 2 (53 - dg) ltac:(lia) ltac:(lia)) as Hp1.
  assert (2 ^ 52 <= m * 2 ^ (53 - dg) < 2 ^ 53) as HM.
  { replace (2 ^ 52) with (2 ^ (dg - 1) * 2 ^ (53 - dg))
      by (rewrite <- Z.pow_add_r by lia; f_equal; lia).
    replace (2 ^ 53) with (2 ^ dg * 2 ^ (53 - dg))
      by (rewrite <- Z.pow_add_r by lia; f_equal; lia).
    nia. }
  destruct (sqrt_finite pow_half (Z.to_pos (m * 2 ^ (53 - dg))) dg Hf) as [l ->].
  { rewrite Z2Pos.id by lia. done. }
  { unfold dg. lia. }
  rewrite Z2Pos.id by lia.
  set (t := 53 - Z.div2 (dg + 1)).
  assert (27 <= t <= 52 ∧ dg <= 106 - 2 * t <= dg + 1) as [Ht Htd].
  { unfold t. rewrite Z.div2_div. pose proof (Z.div_mod (dg + 1) 2 ltac:(lia)).
    pose proof (Z.mod_pos_bound (dg + 1) 2 ltac:(lia)). unfold dg in *. lia. }
  replace (m * 2 ^ (53 - dg) * 2 ^ (dg - 53 + 2 * t)) with (m * 2 ^ (2 * t)).
  2: { rewrite <- Z.mul_assoc, <- Z.pow_add_r by lia. do 2 f_equal. lia. }
  set (q := Z.sqrt (m * 2 ^ (2 * t))).
  assert (2 ^ 52 <= q < 2 ^ 53) as Hq.
  { pose proof (Z.pow_pos_nonneg 2 (2 * t) ltac:(lia) ltac:(lia)).
    split.
    - apply Z.sqrt_le_square; [nia | lia |].
      change (2 ^ 52 * 2 ^ 52) with (2 ^ 104).
      assert (2 ^ 104 <= 2 ^ (dg - 1 + 2 * t)) by (apply Z.pow_le_mono_r; lia).
      rewrite Z.pow_add_r in * by lia. nia.
    - apply Z.sqrt_lt_square; [nia | lia |].
      change (2 ^ 53 * 2 ^ 53) with (2 ^ 106).
      assert (2 ^ (dg + 2 * t) <= 2 ^ 106) by (apply Z.pow_le_mono_r; lia).
      rewrite Z.pow_add_r in * by lia. nia. }
  rewrite binary_round_aux_53 by lia.
  set (Q := round_nearest_even q l).
  assert (Q = q ∨ Q = q + 1) as HQ by apply round_nearest_even_bounds.
  assert (2 ^ t <= 2 ^ 52) as HT by (apply Z.pow_le_mono_r; lia).
  pose proof (sqrt_scaled_floor m t Q Hm ltac:(lia) HQ) as Hfloor.
  destruct (Z.ltb_spec Q (2 ^ 53)) as [Hlt|Hge].
  - rewrite sub_one_to_int; rewrite ?Z2Pos.id by lia; rewrite ?Z.opp_involutive;
      [| lia | lia | lia].
    by rewrite Hfloor.
  - assert (Q = 2 ^ 53) as HQ53 by lia.
    rewrite sub_one_to_int; rewrite ?Z2Pos.id by lia;
      [| lia | lia |].
    2: { apply Z.pow_le_mono_r; lia. }
    rewrite <- Hfloor, HQ53.
    replace (- (- t + 1)) with (t - 1) by lia.
    change (2 ^ 53) with (2 ^ 52 * 2). replace (2 ^ t) with (2 ^ (t - 1) * 2).
    2: { replace t with (t - 1 + 1) at 2 by lia. by rewrite Z.pow_add_r by lia. }
    rewrite Z.div_mul_cancel_r; [done | | lia].
    pose proof (Z.pow_pos_nonneg 2 (t - 1) ltac:(lia) ltac:(lia)). lia.
Qed.

(** The numbering, over the integers: with the exact root, decoding [p] and
    encoding the result gives [p]. *)
Lemma roundtrip_exact pow_half (p : Z) :
  0 <= p →
  QuantumNumbers.int_sqrt_minus_one pow_half p = Ok (Z.sqrt (4 * p + 1) - 1) →
  ∃ n ml tms, QuantumNumbers.p_to_n_ml_tms pow_half p = Ok (n, ml, tms)
              ∧ QuantumNumbers.n_ml_tms_to_p n ml tms = Ok p.
Proof.
  intros Hp Hj. unfold QuantumNumbers.p_to_n_ml_tms.
  unfold QuantumNumbers.assert at 1. rewrite bool_decide_eq_true_2 by lia.
  rewrite bind_Ok_l, Hj, bind_Ok_l.
  set (s := Z.sqrt (4 * p + 1)). set (k := (s - 1) `div` 2).
  set (tms := 1 - p `mod` 2 * 2). set (ml := p `div` 2 * 2 - k * (k + 2)).
  set (n := (k - Z.abs ml) `div` 2).
  exists n, ml, tms. split; [done |].
  pose proof (Z.sqrt_spec (4 * p + 1) ltac:(lia)) as Hs. fold s in Hs.
  cbv zeta in Hs. pose proof (Z.sqrt_nonneg (4 * p + 1)) as Hs0. fold s in Hs0.
  pose proof (Z.div_mod (s - 1) 2 ltac:(lia)) as Hk. fold k in Hk.
  pose proof (Z.mod_pos_bound (s - 1) 2 ltac:(lia)) as Hkr.
  pose proof (Z.div_mod p 2 ltac:(lia)) as Hh.
  pose proof (Z.mod_pos_bound p 2 ltac:(lia)) as Hb.
  set (h := p `div` 2) in *. set (b := p `mod` 2) in *.
  assert (0 <= k) as Hk0 by nia.
  assert (k * (k + 1) <= p < (k + 1) * (k + 2)) as Hshell by nia.
  assert (∃ c, k * (k + 1) = 2 * c) as [c Hc].
  { destruct (Z.Even_or_Odd k) as [[a ->] | [a ->]].
    - exists (a * (2 * a + 1)). lia.
    - exists ((2 * a + 1) * (a + 1)). lia. }
  assert (ml = 2 * h - k * (k + 2)) as Hml by (unfold ml; lia).
  assert (- k <= ml <= k) as Hmlk by nia.
  assert (k - Z.abs ml = 2 * n) as Hn.
  { unfold n. pose proof (Z.div_mod (k - Z.abs ml) 2 ltac:(lia)) as Hd.
    pose proof (Z.mod_pos_bound (k - Z.abs ml) 2 ltac:(lia)) as Hr.
    assert (∃ c', k - Z.abs ml = 2 * c') as [c' Hc'].
    { destruct (Z.abs_spec ml) as [[? ->] | [? ->]].
      - exists (c + k - h). nia.
      - exists (h - c). nia. }
    lia. }
  assert (0 <= n) as Hn0 by lia.
  unfold QuantumNumbers.n_ml_tms_to_p, QuantumNumbers.assert.
  rewrite (bool_decide_eq_true_2 (n >= 0)) by lia. rewrite bind_Ok_l.
  rewrite (bool_decide_eq_true_2 (tms ∈ [-1; 1])).
  2: { unfold tms. fold b. rewrite !elem_of_cons.
       assert (b = 0 ∨ b = 1) as [-> | ->] by lia; auto. }
  rewrite bind_Ok_l. f_equal.
  replace (2 * n + Z.abs ml) with k by lia.
  assert ((1 - tms) `div` 2 = b) as ->.
  { unfold tms. fold b. replace (1 - (1 - b * 2)) with (b * 2) by lia.
    by rewrite Z.div_mul by lia. }
  nia.
Qed.

(** The state [72057595916976139] is the last of shell [2 ^ 28 + 2]. The
    double nearest to [4 * p + 1] lies above the square of [2 * k + 3], so
    that each neighbour of its root is at least [2 * k + 3]: the state is
    decoded into the next shell, with [n = -1]. *)
Lemma p_to_n_ml_tms_next_shell pow_half :
  Float64.faithful pow_half →
  QuantumNumbers.p_to_n_ml_tms pow_half 72057595916976139
  = Ok (-1, -268435461, -1).
Proof.
  intros Hf.
  unfold QuantumNumbers.p_to_n_ml_tms, QuantumNumbers.int_sqrt_minus_one.
  unfold QuantumNumbers.assert at 1. rewrite bool_decide_eq_true_2 by lia.
  rewrite bind_Ok_l.
  assert (Float64.of_int (4 * 72057595916976139 + 1)
          = Ok (S754_finite false 4503599744811009 6)) as ->
    by (vm_compute; reflexivity).
  rewrite bind_Ok_l.
  destruct (Hf 4503599744811009%positive 6) as [-> | ->];
    vm_compute; reflexivity.
Qed.

(** C10, as stated, fails: with the correctly rounded root the last state of
    shell [2 ^ 28 + 2] is decoded into the next shell, with [n = -1], and
    encoding the result fails its assertion. *)
Lemma roundtrip_counterexample :
  0 <= 72057595916976139
  ∧ QuantumNumbers.p_to_n_ml_tms Float64.sqrt 72057595916976139
    = Ok (-1, -268435461, -1)
  ∧ QuantumNumbers.n_ml_tms_to_p (-1) (-268435461) (-1) = Raise AssertionError.
Proof. split; [lia | split; vm_compute; reflexivity]. Qed.

(** The same holds whichever neighbour of the root [** 0.5] returns. *)
Lemma roundtrip_fails pow_half :
  Float64.faithful pow_half →
  QuantumNumbers.roundtrip pow_half 72057595916976139 = Raise AssertionError.
Proof.
  intros Hf. unfold QuantumNumbers.roundtrip.
  by rewrite (p_to_n_ml_tms_next_shell pow_half Hf).
Qed.

(** C10, amended. For [0 <= p < 2 ^ 50] decoding [p] returns quantum numbers,
    and encoding them returns [p], whichever neighbour of the root [** 0.5]
    returns. *)
Theorem roundtrip_below_2_50 pow_half (p : Z) :
  Float64.faithful pow_half →
  0 <= p < 2 ^ 50 →
  ∃ n ml tms, QuantumNumbers.p_to_n_ml_tms pow_half p = Ok (n, ml, tms)
              ∧ QuantumNumbers.n_ml_tms_to_p n ml tms = Ok p.
Proof.
  intros Hf Hp. apply roundtrip_exact; [lia |].
  by apply int_sqrt_minus_one_exact.
Qed.

Lemma roundtrip_below_2_50_witness :
  ∃ n ml tms, QuantumNumbers.p_to_n_ml_tms Float64.sqrt 41 = Ok (n, ml, tms)
              ∧ QuantumNumbers.n_ml_tms_to_p n ml tms = Ok 41.
Proof. apply (roundtrip_below_2_50 Float64.sqrt 41 sqrt_faithful). lia. Defined.

Corollary roundtrip_identity pow_half (p : Z) :
  Float64.faithful pow_half →
  0 <= p < 2 ^ 50 →
  QuantumNumbers.roundtrip pow_half p = Ok p.
Proof.
  intros Hf Hp. unfold QuantumNumbers.roundtrip.
  destruct (roundtrip_exact pow_half p) as (n & ml & tms & -> & Hp');
    [lia | by apply int_sqrt_minus_one_exact |].
  by rewrite bind_Ok_l.
Qed.

Example p_to_n_ml_tms_41 :
  QuantumNumbers.p_to_n_ml_tms Float64.sqrt 41 = Ok (0, 5, -1).
Proof. vm_compute. reflexivity. Qed.

Example canonicalize_p_41 :
  QuantumNumbers.canonicalize_p Float64.sqrt 41 = Ok 40.
Proof. vm_compute. reflexivity. Qed.

End Binary64.

(** *** The cache across calls *)

(** X18. [save_json] replaces the file: when it is done the file holds the new
    text and the temporary file is gone, no other file has changed, and at
    every moment in between the file is what it was or complete. *)
Theorem save_json_replaces (st : files) (fn : string) (data : bytes) :
  fs_run st (save_json fn data) !! fn = Some data
  ∧ fs_run st (save_json fn data) !! (fn +:+ ".tmp") = None
  ∧ (∀ p, p ≠ fn → p ≠ fn +:+ ".tmp" →
          fs_run st (save_json fn data) !! p = st !! p)
  ∧ ∀ st', st' ∈ observable st (save_json fn data) →
           st' !! fn = st !! fn ∨ st' !! fn = Some data.
Proof.
  pose proof (append_tmp_ne fn) as Hne.
  split; [| split; [| split]].
  - unfold fs_run, save_json. simpl. by simplify_map_eq.
  - unfold fs_run, save_json. simpl. by simplify_map_eq.
  - intros p Hp Hp'. unfold fs_run, save_json. simpl. by simplify_map_eq.
  - intros st'. apply save_json_atomic.
Qed.

Section CachedCalls.

Context {Args Res : Type}.
Variable dir : string.
Variable cache_path : Args → result string.
Variable dump : Res → result bytes.
Variable load : bytes → result Res.

(** X19. After a call that missed, the same call is a hit: it returns what
    [load] makes of what [dump] wrote, without a call of the function and
    without a change of the files. *)
Theorem wrapper_miss_then_hit (func func' : Args → result Res) (st : files)
    (args : Args) (path : string) (e : exn) (r r' : Res) (data : bytes) :
  cache_path args = Ok path → read_entry load st path = Raise e →
  caught e = true → func args = Ok r → dump r = Ok data →
  load data = Ok r' →
  let first := wrapper dir cache_path dump load func st args in
  first.1 = Ok r
  ∧ wrapper dir cache_path dump load func' (fs_run st first.2) args
    = (Ok r', []).
Proof.
  intros Hpath Hread Hcaught Hfunc Hdump Hload first.
  assert (first = (Ok r, [Makedirs dir; OpenWrite path; Write path data]))
    as -> by (by eapply wrapper_miss).
  split; [done |].
  apply (wrapper_hit dir cache_path dump load func' _ args path data r');
    [done | | done].
  unfold fs_run. simpl. by simplify_map_eq.
Qed.

(** X20. The wrapper writes to no file but the entry of the call, whatever comes
    of the call. *)
Theorem wrapper_writes_entry_only (func : Args → result Res) (st : files)
    (args : Args) (p : string) :
  cache_path args ≠ Ok p →
  fs_run st (wrapper dir cache_path dump load func st args).2 !! p = st !! p.
Proof.
  intros Hp. unfold wrapper.
  destruct (cache_path args) as [path|e0]; [| done].
  assert (path ≠ p) as Hne by congruence.
  destruct (read_entry load st path) as [r|e]; [done |].
  destruct (caught e); [| done].
  destruct (func args) as [r|e']; [| done].
  destruct (dump r) as [data|e'']; unfold fs_run; simpl; by simplify_map_eq.
Qed.

End CachedCalls.

Lemma wrapper_miss_then_hit_witness :
  let first := wrapper ".cache" sample_path sample_dump sample_load
                 (λ _, Ok Byte.x2a) ∅ tt in
  first.1 = Ok Byte.x2a
  ∧ wrapper ".cache" sample_path sample_dump sample_load
      (λ _, Raise (Exception "not called")) (fs_run ∅ first.2) tt
    = (Ok Byte.x2a, []).
Proof.
  apply (wrapper_miss_then_hit ".cache" sample_path sample_dump sample_load
           (λ _, Ok Byte.x2a) (λ _, Raise (Exception "not called")) ∅ tt
           ".cache/load_addrm_2jmj7l5rSw0yVb_vlWAYkK_YBwk.cache~"
           OSError Byte.x2a Byte.x2a [Byte.x2a]); reflexivity.
Defined.

Lemma wrapper_writes_entry_only_witness :
  fs_run {[ "ground-sarah.txt" := [Byte.x31] ]}
    (wrapper ".cache" sample_path sample_dump sample_load
       (λ _, Ok Byte.x2a) {[ "ground-sarah.txt" := [Byte.x31] ]} tt).2
    !! "ground-sarah.txt"
  = ({[ "ground-sarah.txt" := [Byte.x31] ]} : files) !! "ground-sarah.txt".
Proof.
  apply (wrapper_writes_entry_only ".cache" sample_path sample_dump
           sample_load (λ _, Ok Byte.x2a)
           {[ "ground-sarah.txt" := [Byte.x31] ]} tt "ground-sarah.txt").
  discriminate.
Defined.


(** *** The fingerprint of [FileDeps] *)

#[local] Instance path_le_trans : Transitive FileDeps.path_le.
Proof. intros a b c. apply string_leb_trans. Qed.

#[local] Instance path_le_total : Total FileDeps.path_le.
Proof. intros a b. apply String.leb_total. Qed.

Lemma sorted_paths (s : gset string) :
  let l := merge_sort FileDeps.path_le (elements s) in
  StronglySorted (λ p q, FileDeps.path_le p q ∧ p ≠ q) l
  ∧ NoDup l ∧ ∀ p, p ∈ l ↔ p ∈ s.
Proof.
  intros l.
  assert (l ≡ₚ elements s) as Hp by apply merge_sort_Permutation.
  assert (NoDup l) as Hnd by (rewrite Hp; apply NoDup_elements).
  split; [| split; [done |]].
  - pose proof (StronglySorted_merge_sort FileDeps.path_le (elements s)) as Hs.
    fold l in Hs. clear Hp. induction Hs as [|p l' Hs IH Hall]; [constructor |].
    apply NoDup_cons in Hnd as [Hp Hnd]. constructor; [by apply IH |].
    rewrite Forall_forall in *. intros q Hq. split; [by apply Hall |].
    by intros ->.
  - intros p. by rewrite Hp, elem_of_elements.
Qed.

Lemma hash_Ok {Time} (getmtime : string → result Time) (self : FileDeps.t)
    (h : list (string * Time)) :
  FileDeps._hash getmtime self = Ok h
  ↔ Forall2 (λ p x, x.1 = p ∧ getmtime p = Ok x.2)
      (merge_sort FileDeps.path_le (elements (FileDeps._paths self))) h.
Proof.
  unfold FileDeps._hash. rewrite traverse_Ok. split; intros H.
  - eapply Forall2_impl; [exact H |].
    by intros p [q t] (t' & Ht & [= <- <-])%bind_Ok.
  - eapply Forall2_impl; [exact H |].
    intros p [q t] [Hq Ht]. simpl in *. subst q. by rewrite Ht.
Qed.

(** X16. The fingerprint of a set of declared paths: one pair for each declared
    path, whatever the order and the repetitions of the declaration, in the
    order of the paths, with the modification time of the path.  It is
    computed exactly when every declared path has a modification time; the
    error of a path that has none is the error of [_hash]. *)
Theorem hash_spec {Time} (getmtime : string → result Time)
    (paths : list string) :
  (∀ h, FileDeps._hash getmtime (FileDeps.init paths) = Ok h →
        StronglySorted (λ p q, FileDeps.path_le p q ∧ p ≠ q) h.*1
        ∧ (∀ p, p ∈ h.*1 ↔ p ∈ paths)
        ∧ ∀ p t, (p, t) ∈ h → getmtime p = Ok t)
  ∧ ((∃ h, FileDeps._hash getmtime (FileDeps.init paths) = Ok h)
     ↔ ∀ p, p ∈ paths → ∃ t, getmtime p = Ok t)
  ∧ (∀ e, FileDeps._hash getmtime (FileDeps.init paths) = Raise e →
          ∃ p, p ∈ paths ∧ getmtime p = Raise e).
Proof.
  destruct (sorted_paths (FileDeps._paths (FileDeps.init paths)))
    as (Hs & Hnd & Hel).
  set (l := merge_sort _ _) in *.
  assert (∀ p, p ∈ l ↔ p ∈ paths) as Hel'.
  { intros p. rewrite Hel. unfold FileDeps.init. simpl.
    apply elem_of_list_to_set. }
  split; [| split].
  - intros h Hh%hash_Ok. fold l in Hh.
    assert (h.*1 = l) as Hfst.
    { clear -Hh. induction Hh as [|p x l h [Hx _] _ IH]; [done |].
      csimpl. by rewrite Hx, IH. }
    rewrite Hfst. split; [done |]. split; [done |].
    intros p t (i & Hi)%list_elem_of_lookup_1.
    destruct (Forall2_lookup_r _ _ _ _ _ Hh Hi) as (q & _ & Hq & Ht).
    simpl in *. by subst q.
  - split.
    + intros [h Hh%hash_Ok] p (i & Hi)%Hel'%list_elem_of_lookup_1.
      fold l in Hh.
      destruct (Forall2_lookup_l _ _ _ _ _ Hh Hi) as (x & _ & _ & Ht). eauto.
    + intros Hall.
      destruct (FileDeps._hash getmtime (FileDeps.init paths)) as [h|e] eqn:E;
        [eauto |].
      apply traverse_Raise in E as (p & Hp%Hel' & Hr).
      destruct (Hall p Hp) as [t Ht]. by rewrite Ht in Hr.
  - intros e (p & Hp%Hel' & Hr)%traverse_Raise. exists p. split; [done |].
    destruct (getmtime p); [done | by injection Hr as ->].
Qed.

Lemma hash_spec_witness :
  ∃ h, FileDeps._hash sample_mtime
         (FileDeps.init ["imsrg-qdpt/ground.txt"; "ground-sarah.txt";
                         "imsrg-qdpt/ground.txt"])
       = Ok h
       ∧ h = [("ground-sarah.txt", 1500000000%Z);
              ("imsrg-qdpt/ground.txt", 1500000100%Z)]
       ∧ StronglySorted (λ p q, FileDeps.path_le p q ∧ p ≠ q) h.*1.
Proof.
  eexists. split; [vm_compute; reflexivity |]. split; [reflexivity |].
  apply (proj1 (hash_spec sample_mtime
                  ["imsrg-qdpt/ground.txt"; "ground-sarah.txt";
                   "imsrg-qdpt/ground.txt"])).
  vm_compute. reflexivity.
Defined.



(** *** The name of a cache entry *)

Section EntryNameProperties.

Import EntryName.

Example urlsafe_b64encode_3 :
  urlsafe_b64encode [Byte.xfb; Byte.xff; Byte.xbe] = chars "-_--".
Proof. vm_compute. reflexivity. Qed.

Example urlsafe_b64encode_4 :
  urlsafe_b64encode [Byte.x01; Byte.x02; Byte.x03; Byte.x04]
  = chars "AQIDBA==".
Proof. vm_compute. reflexivity. Qed.

Example urlsafe_b64encode_5 :
  strip (urlsafe_b64encode [Byte.x01; Byte.x02; Byte.x03; Byte.x04; Byte.x05])
  = chars "AQIDBAU".
Proof. vm_compute. reflexivity. Qed.

Example name_of_local :
  name (chars "load_addrm.<locals>.f g") = chars "load_addrm.locals.fg".
Proof. vm_compute. reflexivity. Qed.

Example path_of_entry :
  path (chars ".cache") (chars "load_addrm") [Byte.x01; Byte.x02]
  = chars ".cache/load_addrm_AQI.cache~".
Proof. vm_compute. reflexivity. Qed.









End EntryNameProperties.

Section StateNumbering.

#[local] Open Scope Z_scope.

(** A state number lies in one shell. *)
Lemma shell_unique (p k k' : Z) :
  0 <= k → 0 <= k' →
  k * (k + 1) <= p < (k + 1) * (k + 2) →
  k' * (k' + 1) <= p < (k' + 1) * (k' + 2) →
  k = k'.
Proof. intros. nia. Qed.

(** What [n_ml_tms_to_p] returns: a state of shell [k = 2 * n + |ml|], whose
    parity is the spin and whose even part gives [ml]. *)
Lemma n_ml_tms_to_p_shell (n ml tms p : Z) :
  QuantumNumbers.n_ml_tms_to_p n ml tms = Ok p →
  let k := 2 * n + Z.abs ml in
  0 <= n ∧ k * (k + 1) <= p < (k + 1) * (k + 2)
  ∧ p `div` 2 * 2 = k * (k + 2) + ml ∧ tms = 1 - p `mod` 2 * 2.
Proof.
  intros H k. unfold QuantumNumbers.n_ml_tms_to_p, QuantumNumbers.assert in H.
  destruct (bool_decide_reflect (n >= 0)) as [Hn|]; [| done].
  destruct (bool_decide_reflect (tms ∈ [-1; 1])) as [Ht|]; [| done].
  simpl in H. injection H as <-. fold k.
  assert (tms = -1 ∨ tms = 1) as Htms.
  { rewrite !elem_of_cons in Ht. destruct Ht as [-> | [-> | Ht]]; auto.
    by apply elem_of_nil in Ht. }
  assert (∃ c, k * (k + 2) + ml = 2 * c) as [c Hc].
  { unfold k. destruct (Z.abs_spec ml) as [[? ->] | [? ->]].
    - exists (2 * n * n + 2 * n * ml + 2 * n + (ml * (ml + 3)) `div` 2).
      assert (ml * (ml + 3) = 2 * ((ml * (ml + 3)) `div` 2)) as E.
      { destruct (Z.Even_or_Odd ml) as [[a ->] | [a ->]].
        - replace (2 * a * (2 * a + 3)) with ((a * (2 * a + 3)) * 2) by lia.
          rewrite Z.div_mul by lia. lia.
        - replace ((2 * a + 1) * (2 * a + 1 + 3)) with (((2 * a + 1) * (a + 2)) * 2) by lia.
          rewrite Z.div_mul by lia. lia. }
      nia.
    - exists (2 * n * n - 2 * n * ml + 2 * n + (ml * (ml - 1)) `div` 2).
      assert (ml * (ml - 1) = 2 * ((ml * (ml - 1)) `div` 2)) as E.
      { destruct (Z.Even_or_Odd ml) as [[a ->] | [a ->]].
        - replace (2 * a * (2 * a - 1)) with ((a * (2 * a - 1)) * 2) by lia.
          rewrite Z.div_mul by lia. lia.
        - replace ((2 * a + 1) * (2 * a + 1 - 1)) with (((2 * a + 1) * a) * 2) by lia.
          rewrite Z.div_mul by lia. lia. }
      nia. }
  assert (0 <= k) by (unfold k; lia).
  assert (- k <= ml <= k) by (unfold k; lia).
  assert ((1 - tms) `div` 2 = 0 ∧ tms = 1 ∨ (1 - tms) `div` 2 = 1 ∧ tms = -1)
    as Hb by (destruct Htms as [-> | ->]; [right | left]; done).
  set (b := (1 - tms) `div` 2) in *.
  assert (b + k * (k + 2) + ml = 2 * c + b) as E by lia. rewrite E.
  assert ((2 * c + b) `div` 2 = c ∧ (2 * c + b) `mod` 2 = b) as [-> ->].
  { pose proof (Z.div_mod (2 * c + b) 2 ltac:(lia)).
    pose proof (Z.mod_pos_bound (2 * c + b) 2 ltac:(lia)). lia. }
  split; [lia |]. split; [nia |]. split; lia.
Qed.

Lemma n_ml_tms_to_p_unique (n ml tms n' ml' tms' p : Z) :
  QuantumNumbers.n_ml_tms_to_p n ml tms = Ok p →
  QuantumNumbers.n_ml_tms_to_p n' ml' tms' = Ok p →
  n = n' ∧ ml = ml' ∧ tms = tms'.
Proof.
  intros (Hn & Hs & Hm & Ht)%n_ml_tms_to_p_shell
         (Hn' & Hs' & Hm' & Ht')%n_ml_tms_to_p_shell.
  cbv zeta in *.
  assert (2 * n + Z.abs ml = 2 * n' + Z.abs ml') as Hk
    by (apply (shell_unique p); lia).
  rewrite <- Hk in Hm'. lia.
Qed.

Lemma p_to_n_ml_tms_after pow_half (n ml tms p : Z) :
  Float64.faithful pow_half →
  QuantumNumbers.n_ml_tms_to_p n ml tms = Ok p → p < 2 ^ 50 →
  QuantumNumbers.p_to_n_ml_tms pow_half p = Ok (n, ml, tms).
Proof.
  intros Hf He Hp.
  pose proof (n_ml_tms_to_p_shell _ _ _ _ He) as (Hn & Hs & _). cbv zeta in Hs.
  assert (0 <= p) by nia.
  destruct (roundtrip_exact pow_half p) as (n' & ml' & tms' & -> & He');
    [lia | by apply int_sqrt_minus_one_exact |].
  by destruct (n_ml_tms_to_p_unique _ _ _ _ _ _ _ He' He) as (-> & -> & ->).
Qed.

Lemma p_to_n_ml_tms_shell pow_half (p : Z) :
  Float64.faithful pow_half → 0 <= p < 2 ^ 50 →
  ∃ n ml tms,
    QuantumNumbers.p_to_n_ml_tms pow_half p = Ok (n, ml, tms)
    ∧ QuantumNumbers.n_ml_tms_to_p n ml tms = Ok p
    ∧ 0 <= n
    ∧ (2 * n + Z.abs ml) * (2 * n + Z.abs ml + 1) <= p
      < (2 * n + Z.abs ml + 1) * (2 * n + Z.abs ml + 2)
    ∧ p `div` 2 * 2 = (2 * n + Z.abs ml) * (2 * n + Z.abs ml + 2) + ml
    ∧ tms = 1 - p `mod` 2 * 2.
Proof.
  intros Hf Hp.
  destruct (roundtrip_exact pow_half p) as (n & ml & tms & Hd & He);
    [lia | by apply int_sqrt_minus_one_exact |].
  exists n, ml, tms. split; [done |]. split; [done |].
  by apply n_ml_tms_to_p_shell in He.
Qed.

(** X1. The numbering is injective: two triples of quantum numbers with one state
    number are equal. *)
Theorem n_ml_tms_to_p_inj (n ml tms n' ml' tms' p p' : Z) :
  QuantumNumbers.n_ml_tms_to_p n ml tms = Ok p →
  QuantumNumbers.n_ml_tms_to_p n' ml' tms' = Ok p' →
  p = p' → (n, ml, tms) = (n', ml', tms').
Proof.
  intros He He' <-.
  by destruct (n_ml_tms_to_p_unique _ _ _ _ _ _ _ He He') as (-> & -> & ->).
Qed.

Lemma n_ml_tms_to_p_inj_witness :
  QuantumNumbers.n_ml_tms_to_p 0 5 (-1) = Ok 41
  ∧ (0, 5, -1) = (0, 5, -1).
Proof.
  split; [reflexivity |].
  apply (n_ml_tms_to_p_inj 0 5 (-1) 0 5 (-1) 41 41); reflexivity.
Defined.

(** X2. Encoding quantum numbers and decoding the state gives the quantum
    numbers back, for states below [2 ^ 50]. *)
Theorem p_to_n_ml_tms_n_ml_tms_to_p pow_half (n ml tms p : Z) :
  Float64.faithful pow_half →
  QuantumNumbers.n_ml_tms_to_p n ml tms = Ok p → p < 2 ^ 50 →
  QuantumNumbers.p_to_n_ml_tms pow_half p = Ok (n, ml, tms).
Proof. apply p_to_n_ml_tms_after. Qed.

Lemma p_to_n_ml_tms_n_ml_tms_to_p_witness :
  QuantumNumbers.p_to_n_ml_tms Float64.sqrt 41 = Ok (0, 5, -1).
Proof.
  apply (p_to_n_ml_tms_n_ml_tms_to_p Float64.sqrt 0 5 (-1) 41 sqrt_faithful);
    [reflexivity | lia].
Defined.

(** X3. The state [p] is decoded into the shell [k = 2 * n + |ml|] that holds it:
    shell [k] is the states [k * (k + 1) .. (k + 1) * (k + 2) - 1]; the spin
    is the parity of [p], and [ml], which [p_to_ml] returns, the place of its
    even part in the shell. *)
Theorem p_to_n_ml_tms_in_shell pow_half (p : Z) :
  Float64.faithful pow_half → 0 <= p < 2 ^ 50 →
  ∃ n ml tms,
    QuantumNumbers.p_to_n_ml_tms pow_half p = Ok (n, ml, tms)
    ∧ 0 <= n
    ∧ (let k := 2 * n + Z.abs ml in
       k * (k + 1) <= p < (k + 1) * (k + 2)
       ∧ ml = p `div` 2 * 2 - k * (k + 2))
    ∧ tms = (if Z.even p then 1 else -1)
    ∧ QuantumNumbers.p_to_ml pow_half p = Ok ml.
Proof.
  intros Hf Hp.
  destruct (p_to_n_ml_tms_shell pow_half p Hf Hp)
    as (n & ml & tms & Hd & _ & Hn & Hs & Hm & Ht).
  exists n, ml, tms. split; [done |]. split; [done |]. split; [| split].
  - cbv zeta. split; [done | lia].
  - rewrite Ht, Zmod_even. by destruct (Z.even p).
  - unfold QuantumNumbers.p_to_ml. by rewrite Hd.
Qed.

Lemma p_to_n_ml_tms_in_shell_witness :
  ∃ n ml tms,
    QuantumNumbers.p_to_n_ml_tms Float64.sqrt 41 = Ok (n, ml, tms)
    ∧ 0 <= n
    ∧ (let k := 2 * n + Z.abs ml in
       k * (k + 1) <= 41 < (k + 1) * (k + 2)
       ∧ ml = 41 `div` 2 * 2 - k * (k + 2))
    ∧ tms = (if Z.even 41 then 1 else -1)
    ∧ QuantumNumbers.p_to_ml Float64.sqrt 41 = Ok ml.
Proof. apply (p_to_n_ml_tms_in_shell Float64.sqrt 41 sqrt_faithful). lia. Defined.

(** X4. [canonicalize_p] maps a state to the state with the same [n], with
    [|ml|] for [ml] and with spin [+1]; a state of that form is its own
    image, so that canonicalizing twice is canonicalizing once. *)
Theorem canonicalize_p_idempotent pow_half (p : Z) :
  Float64.faithful pow_half → 0 <= p < 2 ^ 49 →
  ∃ n ml tms q,
    QuantumNumbers.p_to_n_ml_tms pow_half p = Ok (n, ml, tms)
    ∧ QuantumNumbers.canonicalize_p pow_half p = Ok q
    ∧ QuantumNumbers.p_to_n_ml_tms pow_half q = Ok (n, Z.abs ml, 1)
    ∧ QuantumNumbers.canonicalize_p pow_half q = Ok q.
Proof.
  intros Hf Hp.
  destruct (p_to_n_ml_tms_shell pow_half p Hf)
    as (n & ml & tms & Hd & _ & Hn & Hs & _);
    [change (2 ^ 50) with (2 * 2 ^ 49); lia |].
  set (k := 2 * n + Z.abs ml) in *.
  set (q := k * (k + 2) + Z.abs ml).
  assert (QuantumNumbers.n_ml_tms_to_p n (Z.abs ml) 1 = Ok q) as He.
  { unfold QuantumNumbers.n_ml_tms_to_p, QuantumNumbers.assert.
    rewrite (bool_decide_eq_true_2 (n >= 0)) by lia. rewrite bind_Ok_l.
    rewrite (bool_decide_eq_true_2 (1 ∈ [-1; 1])) by (rewrite !elem_of_cons; auto).
    rewrite bind_Ok_l. replace (Z.abs (Z.abs ml)) with (Z.abs ml) by lia. fold k. done. }
  assert (q < 2 ^ 50) as Hq.
  { assert (0 <= k) by (unfold k; lia).
    assert (k < 2 ^ 25).
    { destruct (Z.lt_ge_cases k (2 ^ 25)) as [|Hge]; [done |].
      assert (2 ^ 25 * 2 ^ 25 <= k * (k + 1)) by nia.
      change (2 ^ 25 * 2 ^ 25) with (2 * 2 ^ 49) in *. lia. }
    unfold q. assert (Z.abs ml <= k) by (unfold k; lia).
    change (2 ^ 50) with (2 ^ 49 + 2 ^ 49). change (2 ^ 49) with (2 ^ 24 * 2 ^ 25) at 2.
    nia. }
  pose proof (p_to_n_ml_tms_after pow_half _ _ _ _ Hf He Hq) as Hdq.
  exists n, ml, tms, q. split; [done |].
  unfold QuantumNumbers.canonicalize_p. rewrite Hd, Hdq, !bind_Ok_l.
  cbv beta iota. replace (Z.abs (Z.abs ml)) with (Z.abs ml) by lia. by rewrite He.
Qed.

Lemma canonicalize_p_idempotent_witness :
  ∃ n ml tms q,
    QuantumNumbers.p_to_n_ml_tms Float64.sqrt 41 = Ok (n, ml, tms)
    ∧ QuantumNumbers.canonicalize_p Float64.sqrt 41 = Ok q
    ∧ QuantumNumbers.p_to_n_ml_tms Float64.sqrt q = Ok (n, Z.abs ml, 1)
    ∧ QuantumNumbers.canonicalize_p Float64.sqrt q = Ok q.
Proof. apply (canonicalize_p_idempotent Float64.sqrt 41 sqrt_faithful). lia. Defined.



(** X6. [preferred_ml] is the least [|ml|] in the shell next to the closure: the
    first empty shell [num_filled] for an addition, the last filled shell
    [num_filled - 1] for a removal. *)
Theorem preferred_ml_least (label : string) (num_filled : Z) :
  label ≠ "ground" →
  let k := if bool_decide (label = "add") then num_filled else num_filled - 1 in
  0 <= k →
  0 <= preferred_ml label num_filled
  ∧ (∃ n, 0 <= n ∧ 2 * n + preferred_ml label num_filled = k)
  ∧ ∀ n ml, 0 <= n → 2 * n + Z.abs ml = k →
            preferred_ml label num_filled <= Z.abs ml.
Proof.
  intros Hg k Hk. unfold preferred_ml.
  rewrite bool_decide_eq_false_2 by done.
  set (r := (num_filled + _) `mod` 2).
  assert (r = k `mod` 2) as Hr.
  { unfold r, k. destruct (decide (label = "add")) as [Ha|Ha].
    - rewrite (bool_decide_eq_true_2 _ Ha).
      rewrite (bool_decide_eq_false_2 (label ≠ "add")) by tauto.
      f_equal. lia.
    - rewrite (bool_decide_eq_false_2 _ Ha).
      rewrite (bool_decide_eq_true_2 (label ≠ "add")) by done.
      replace (num_filled + 1) with (num_filled - 1 + 1 * 2) by lia.
      by rewrite Z.mod_add by lia. }
  pose proof (Z.div_mod k 2 ltac:(lia)) as Hd.
  pose proof (Z.mod_pos_bound k 2 ltac:(lia)) as Hb. rewrite <- Hr in *.
  split; [lia |]. split.
  - exists (k `div` 2). lia.
  - intros n ml Hn Hm. lia.
Qed.

Lemma preferred_ml_least_witness :
  0 <= preferred_ml "rm" 4
  ∧ (∃ n, 0 <= n ∧ 2 * n + preferred_ml "rm" 4 = 3)
  ∧ ∀ n ml, 0 <= n → 2 * n + Z.abs ml = 3 → preferred_ml "rm" 4 <= Z.abs ml.
Proof. apply (preferred_ml_least "rm" 4); [done | simpl; lia]. Defined.

End StateNumbering.

(** *** [get_num_filled] *)

Lemma VNat_inj (j k : nat) : VNat j = VNat k → j = k.
Proof. unfold VNat. intros [= H]. lia. Qed.


Lemma value_eqb_VNat (v : value) (k : nat) :
  value_eqb v (VNat k) = true ↔ v = VNat k.
Proof.
  unfold value_eqb, VNat. destruct v; [| by split | by split].
  by rewrite bool_decide_eq_true.
Qed.

Lemma get_num_filled_pyfunc_Ok (v w : value) (max_shells : nat) :
  get_num_filled_pyfunc v max_shells = Ok w
  ↔ ∃ k, k < max_shells ∧ v = VNat (k * (k + 1)) ∧ w = VNat k.
Proof.
  unfold get_num_filled_pyfunc. split.
  - destruct (list_find _ _) as [[i k]|] eqn:Hf; [| done]. intros [= <-].
    apply list_find_Some in Hf as (Hi & Hk & _).
    apply lookup_seq in Hi as [-> Hi]. apply value_eqb_VNat in Hk.
    exists i. by rewrite Nat.add_0_l in *.
  - intros (k & Hk & -> & ->).
    destruct (list_find _ _) as [[i j]|] eqn:Hf.
    + apply list_find_Some in Hf as (_ & Hj%value_eqb_VNat%VNat_inj & _).
      do 2 f_equal. nia.
    + apply list_find_None in Hf. rewrite Forall_forall in Hf.
      destruct (Hf k); [apply elem_of_seq; lia | by apply value_eqb_VNat].
Qed.

Lemma get_num_filled_Ok (vs ws : list value) :
  get_num_filled vs = Ok ws
  ↔ vs ≠ []
    ∧ Forall2 (λ v w, ∃ k, k < 100 ∧ v = VNat (k * (k + 1)) ∧ w = VNat k)
        vs ws.
Proof.
  unfold get_num_filled. destruct vs as [|v vs]; [by split; [| intros []] |].
  rewrite traverse_Ok. split.
  - intros H. split; [done |].
    eapply Forall2_impl; [exact H |]. intros ??. by apply get_num_filled_pyfunc_Ok.
  - intros [_ H]. eapply Forall2_impl; [exact H |].
    intros ??. by apply get_num_filled_pyfunc_Ok.
Qed.

(** X7. [get_num_filled] inverts the closed-shell count [k * (k + 1)] on a column
    with at least one element: it returns the column [ws] exactly when each
    element is [k * (k + 1)] for the [k < 100] at its place in [ws].  On a
    column with no element it raises, and so it does for the closed shells
    from the hundredth on. *)
Theorem get_num_filled_inverse (vs ws : list value) :
  (get_num_filled vs = Ok ws
   ↔ vs ≠ []
     ∧ Forall2 (λ v w, ∃ k, k < 100 ∧ v = VNat (k * (k + 1)) ∧ w = VNat k)
         vs ws)
  ∧ raises (get_num_filled [])
  ∧ ∀ k, 100 ≤ k → raises (get_num_filled [VNat (k * (k + 1))]).
Proof.
  split; [apply get_num_filled_Ok |]. split; [by eexists |].
  intros k Hk. destruct (get_num_filled _) as [ws'|e] eqn:Hg; [| by eexists].
  apply get_num_filled_Ok in Hg as [_ Hg].
  apply Forall2_cons_inv_l in Hg
    as (w & ws'' & (k' & Hk' & Heq%VNat_inj & _) & _ & _).
  nia.
Qed.

(** *** The tables of the Monte Carlo results *)























(** *** The groups are a partition *)

Lemma bind_filter_nil {K E} (P : K → E → Prop) `{∀ k e, Decision (P k e)}
    (ks : list K) :
  ks ≫= (λ k, filter (P k) ([] : list E)) = [].
Proof. induction ks as [|k ks IH]; [done |]. csimpl. by rewrite IH. Qed.

Lemma bind_filter_skip {K E} `{EqDecision K} (key : E → K) (ks : list K)
    (e : E) (es : list E) :
  key e ∉ ks →
  ks ≫= (λ k, filter (λ e', key e' = k) (e :: es))
  = ks ≫= (λ k, filter (λ e', key e' = k) es).
Proof.
  induction ks as [|k ks IH]; [done |]. intros Hn. csimpl.
  rewrite filter_cons_False by (simpl; intros Heq; apply Hn; rewrite Heq; left).
  f_equal. apply IH. intros ?. apply Hn. by right.
Qed.

Lemma bind_filter_cons {K E} `{EqDecision K} (key : E → K) (ks : list K)
    (e : E) (es : list E) :
  NoDup ks → key e ∈ ks →
  ks ≫= (λ k, filter (λ e', key e' = k) (e :: es))
  ≡ₚ e :: ks ≫= (λ k, filter (λ e', key e' = k) es).
Proof.
  induction ks as [|k ks IH]; [by intros _ ?%elem_of_nil |].
  intros [Hk Hnd]%NoDup_cons Hin. csimpl.
  destruct (decide (key e = k)) as [<- | Hne].
  - rewrite filter_cons_True by done. rewrite bind_filter_skip by done. done.
  - rewrite filter_cons_False by done.
    apply elem_of_cons in Hin as [? | Hin]; [done |].
    rewrite IH by done. by rewrite Permutation_middle.
Qed.

Lemma bind_filter_partition {K E} `{EqDecision K} (key : E → K)
    (ks : list K) (es : list E) :
  NoDup ks → (∀ e, e ∈ es → key e ∈ ks) →
  ks ≫= (λ k, filter (λ e, key e = k) es) ≡ₚ es.
Proof.
  intros Hnd. induction es as [|e es IH]; intros Hin.
  - by rewrite bind_filter_nil.
  - rewrite bind_filter_cons; [| done | apply Hin; left].
    f_equiv. apply IH. intros e' He'. apply Hin. by right.
Qed.

Lemma group_keys_NoDup (gs : GroupBy) : NoDup (group_keys gs).
Proof.
  unfold group_keys. rewrite merge_sort_Permutation. apply NoDup_remove_dups.
Qed.

Lemma groups_entries_bind (gs : GroupBy) :
  groups gs ≫= entries
  = group_keys gs
      ≫= (λ k, filter (λ e, row_key (gb_by gs) e.2 = k) (entries (gb_obj gs))).
Proof.
  unfold groups. induction (group_keys gs) as [|k ks IH]; [done |].
  csimpl. by rewrite IH.
Qed.

(** Where no record lacks a key, each record is in one group. *)
Lemma groups_partition (gs : GroupBy) :
  (∀ e, e ∈ entries (gb_obj gs) → VNull ∉ row_key (gb_by gs) e.2) →
  groups gs ≫= entries ≡ₚ entries (gb_obj gs).
Proof.
  intros Hkeys. rewrite groups_entries_bind.
  apply (bind_filter_partition (λ e : nat * row, row_key (gb_by gs) e.2)).
  - apply group_keys_NoDup.
  - intros e He. by apply get_group_entry; [| apply Hkeys].
Qed.

Lemma reindex_own_labels (es : list (nat * row)) :
  NoDup es.*1 →
  (λ i, (i, default ∅ ((list_to_map es : gmap nat row) !! i))) <$> es.*1 = es.
Proof.
  intros Hnd. rewrite <- list_fmap_compose.
  rewrite <- (list_fmap_id es) at 2. apply list_fmap_ext.
  intros j [i r] He%list_elem_of_lookup_2. simpl.
  by rewrite (elem_of_list_to_map_1 es i r).
Qed.

(** What [apply] returns, under a sound test of the labels and with a key in
    every record: the records that the combiner returned for the groups, in
    some order. *)
Lemma apply_Permutation
    (il : DataFrame → DataFrame → bool) (gs : GroupBy)
    (f : DataFrame → result DataFrame) (out : DataFrame) :
  indexed_like_sound il →
  (∀ e, e ∈ entries (gb_obj gs) → VNull ∉ row_key (gb_by gs) e.2) →
  apply il gs f = Ok out →
  ∃ results, Forall2 (λ g r, f g = Ok r) (groups gs) results
             ∧ entries out ≡ₚ results ≫= entries.
Proof.
  intros Hsound Hkeys. unfold apply.
  destruct (traverse f (groups gs)) as [results|?] eqn:Ht; [| done].
  rewrite bind_Ok_l. apply traverse_Ok in Ht. intros Hout.
  exists results. split; [done |].
  destruct results as [|r0 rs] eqn:Hres; [by injection Hout as <- |].
  rewrite <- Hres in *.
  assert (pd_concat results
          = Ok (mkFrame (⋃ (columns <$> results)) (results ≫= entries)))
    as Hcat by (by rewrite Hres).
  clear Hres r0 rs.
  destruct (forallb _ _) eqn:Hil;
    [| rewrite Hcat in Hout; by injection Hout as <-].
  rewrite Hcat, bind_Ok_l in Hout. unfold reindex in Hout. simpl in Hout.
  case_bool_decide as Hsame; [by injection Hout as <- |].
  case_bool_decide as Hnd; [| done]. injection Hout as <-. simpl.
  pose proof (Forall2_forallb_zip _ il _ _ Ht Hil) as Ht'.
  assert (index (gb_obj gs) ≡ₚ (results ≫= entries).*1) as Hperm.
  { unfold index. rewrite <- (groups_partition gs Hkeys).
    assert (groups gs ≫= index = results ≫= index) as Hidx.
    { clear -Ht' Hsound. induction Ht' as [|g r gl rl [_ Hgr] _ IH]; [done |].
      csimpl. rewrite IH. f_equal. symmetry. by apply Hsound. }
    unfold index in Hidx.
    assert (∀ l : list DataFrame, (l ≫= entries).*1 = l ≫= (λ d, (entries d).*1))
      as Hb.
    { intros l. induction l as [|x l IH]; [done |]. csimpl.
      by rewrite fmap_app, IH. }
    by rewrite !Hb, Hidx. }
  rewrite Hperm. unfold index in Hnd. simpl in Hnd.
  by rewrite reindex_own_labels.
Qed.

(** What [check_fun_dep] returns with a combiner, on a table with records:
    no key is missing, the combiner returned for every group, and the table
    holds what it returned. *)
Lemma check_fun_dep_results
    (il : DataFrame → DataFrame → bool) (d out : DataFrame)
    (cols : list string) (tolers : list (string * Qc))
    (f : DataFrame → result DataFrame) :
  indexed_like_sound il →
  check_fun_dep il d cols tolers (Some f) = Ok out → len d ≠ 0 →
  (∀ e, e ∈ entries d → VNull ∉ row_key cols e.2)
  ∧ ∃ results,
      Forall2 (λ k r, f (get_group (mkGroupBy d cols) k) = Ok r)
        (group_keys (mkGroupBy d cols)) results
      ∧ rows out ≡ₚ (results ≫= entries).*2.
Proof.
  intros Hsound Hout Hlen.
  apply check_fun_dep_Ok in Hout
    as [[? _] | (_ & Hnull & out' & Ha & ->)]; [done |].
  assert (∀ e, e ∈ entries d → VNull ∉ row_key cols e.2) as Hkeys.
  { intros e He (c & Hc & Hin)%list_elem_of_fmap.
    eapply (Hnull c e.2); [done | by apply list_elem_of_fmap_2 | done]. }
  split; [done |].
  destruct (apply_Permutation il (mkGroupBy d cols) f out' Hsound Hkeys Ha)
    as (results & Hres & Hperm).
  exists results. split.
  - unfold groups in Hres. by apply Forall2_fmap_l in Hres.
  - rewrite reset_index_rows. unfold rows. by rewrite Hperm.
Qed.

Lemma get_group_key (gs : GroupBy) (k : list value) (e : nat * row) :
  e ∈ entries (get_group gs k) →
  e ∈ entries (gb_obj gs) ∧ row_key (gb_by gs) e.2 = k.
Proof. unfold get_group. simpl. by intros [? ?]%list_elem_of_filter. Qed.

(** The keys of the records that a combiner returned, where it returned at
    most one record of each group: some of the keys of the groups, in their
    order. *)
Lemma results_keys_sublist (gs : GroupBy) (f : DataFrame → result DataFrame)
    (ks : list (list value)) (results : list DataFrame) :
  (∀ g r, f g = Ok r →
          len r ≤ 1 ∧ ∀ e, e ∈ entries r → e ∈ entries g) →
  Forall2 (λ k r, f (get_group gs k) = Ok r) ks results →
  row_key (gb_by gs) <$> (results ≫= entries).*2 `sublist_of` ks.
Proof.
  intros Hf. induction 1 as [|k r ks rs Hkr _ IH]; [done |].
  csimpl. rewrite !fmap_app. destruct (Hf _ _ Hkr) as [Hlen Hsel].
  unfold len in Hlen. destruct (entries r) as [|e [|e' es]] eqn:He.
  - simpl. by apply sublist_cons.
  - simpl. assert (e ∈ entries (get_group gs k)) as [_ <-]%get_group_key
      by (apply Hsel; left).
    by apply sublist_skip.
  - simpl in Hlen. lia.
Qed.

Lemma check_fun_dep_unique_keys
    (il : DataFrame → DataFrame → bool) (d out : DataFrame)
    (cols : list string) (tolers : list (string * Qc))
    (f : DataFrame → result DataFrame) :
  indexed_like_sound il →
  (∀ g r, f g = Ok r →
          len r ≤ 1 ∧ ∀ e, e ∈ entries r → e ∈ entries g) →
  check_fun_dep il d cols tolers (Some f) = Ok out →
  NoDup (row_key cols <$> rows out) ∧ ∀ r, r ∈ rows out → r ∈ rows d.
Proof.
  intros Hsound Hf Hout. destruct (decide (len d = 0)) as [Hlen | Hlen].
  { apply check_fun_dep_Ok in Hout as [[_ ->] | (? & _)]; [| done].
    unfold rows, len in *. apply length_zero_iff_nil in Hlen. rewrite Hlen.
    split; [constructor | done]. }
  destruct (check_fun_dep_results il d out cols tolers f Hsound Hout Hlen)
    as (Hkeys & results & Hres & Hperm).
  split.
  - rewrite Hperm. eapply sublist_NoDup; [apply group_keys_NoDup |].
    by apply (results_keys_sublist (mkGroupBy d cols) f).
  - intros r. rewrite Hperm.
    intros (e & -> & (r' & He & (j & Hj)%list_elem_of_lookup_1)%list_elem_of_bind)%list_elem_of_fmap.
    destruct (Forall2_lookup_r _ _ _ _ _ Hres Hj) as (k & _ & Hk).
    apply list_elem_of_fmap_2.
    eapply (get_group_key (mkGroupBy d cols) k). eapply Hf; [exact Hk | done].
Qed.

Lemma leftmost_combiner_one (g r : DataFrame) :
  leftmost_combiner g = Ok r →
  len r ≤ 1 ∧ ∀ e, e ∈ entries r → e ∈ entries g.
Proof.
  intros H. split; [| intros e; by apply leftmost_combiner_entries].
  unfold leftmost_combiner in H. destruct (entries g); [done |].
  by injection H as <-.
Qed.



Lemma priority_combiner_one (g r : DataFrame) :
  priority_combiner g = Ok r →
  len r ≤ 1 ∧ ∀ e, e ∈ entries r → e ∈ entries g.
Proof.
  intros H. split; [| intros e; by apply priority_combiner_entries].
  unfold priority_combiner in H. destruct (getcol _ _) as [p|]; [| done].
  rewrite bind_Ok_l in H. case_bool_decide as Hl; [done |].
  injection H as <-. apply Nat.nlt_ge in Hl. exact Hl.
Qed.






(** *** [superset_combiner] *)

Lemma value_eqb_VStr (v : value) (s : string) :
  value_eqb v (VStr s) = true ↔ v = VStr s.
Proof.
  unfold value_eqb. destruct v; [| | by split]; by rewrite bool_decide_eq_true.
Qed.

Lemma superset_combiner_Ok (d r : DataFrame) :
  superset_combiner d = Ok r
  ↔ r = d ∧ "origin" ∈ columns d
    ∧ ∃ x, x ∈ rows d ∧ cell x "origin" = VStr "NEW".
Proof.
  unfold superset_combiner, getcol. case_bool_decide as Hc.
  2: { split; [done | by intros (_ & ? & _)]. }
  rewrite bind_Ok_l. destruct (forallb _ _) eqn:Hall.
  - split; [done |]. intros (_ & _ & x & Hx & Hnew).
    rewrite forallb_forall in Hall.
    specialize (Hall (cell x "origin")). rewrite Hnew in Hall.
    assert (negb (value_eqb (VStr "NEW") (VStr "NEW")) = true) as Hn.
    { apply Hall, list_elem_of_In. rewrite <- Hnew.
      by apply (list_elem_of_fmap_2 (λ r : row, cell r "origin")). }
    done.
  - split; [| by intros (-> & _)]. intros [= <-]. split; [done |]. split; [done |].
    apply not_true_iff_false in Hall.
    destruct (decide (Exists (λ x, cell x "origin" = VStr "NEW") (rows d)))
      as [(x & ? & ?)%Exists_exists | Hn]; [eauto |].
    destruct Hall. apply forallb_forall. intros v (x & -> & Hx)%list_elem_of_In%list_elem_of_fmap.
    apply negb_true_iff, not_true_iff_false. intros Hv%value_eqb_VStr.
    apply Hn, Exists_exists. eauto.
Qed.

(** [superset_combiner] returns a group as it is when one of its records has
    the origin ["NEW"], and raises otherwise: for a group where none has, a
    group without records among them, and where there is no column of the
    origins. *)
Theorem superset_combiner_spec (d : DataFrame) :
  (superset_combiner d = Ok d
   ↔ "origin" ∈ columns d ∧ ∃ x, x ∈ rows d ∧ cell x "origin" = VStr "NEW")
  ∧ (raises (superset_combiner d)
     ↔ ¬ ("origin" ∈ columns d
          ∧ ∃ x, x ∈ rows d ∧ cell x "origin" = VStr "NEW"))
  ∧ ∀ r, superset_combiner d = Ok r → r = d.
Proof.
  split; [| split].
  - rewrite superset_combiner_Ok. split; [by intros (_ & ? & ?) | by intros [? ?]].
  - split.
    + intros [e He] [Hc Hx].
      assert (superset_combiner d = Ok d) as Hd
        by (by apply superset_combiner_Ok).
      congruence.
    + intros Hn. destruct (superset_combiner d) as [r|e] eqn:Hd; [| by eexists].
      apply superset_combiner_Ok in Hd as (_ & Hc & Hx). by destruct Hn.
  - by intros r (-> & _)%superset_combiner_Ok.
Qed.



(** *** One record for a key in the merged tables *)

Lemma row_key_insert (cols : list string) (c : string) (v : value) (r : row) :
  c ∉ cols → row_key cols (<[c := v]> r) = row_key cols r.
Proof.
  intros Hc. unfold row_key. apply list_fmap_ext. intros i c' Hc'.
  apply cell_insert_ne. intros ->. apply Hc. by eapply list_elem_of_lookup_2.
Qed.

Lemma row_key_delete (cols : list string) (c : string) (r : row) :
  c ∉ cols → row_key cols (delete c r) = row_key cols r.
Proof.
  intros Hc. unfold row_key. apply list_fmap_ext. intros i c' Hc'.
  apply cell_delete_ne. intros ->. apply Hc. by eapply list_elem_of_lookup_2.
Qed.

Lemma keys_setconst (cols : list string) (d : DataFrame) (c : string)
    (v : value) :
  c ∉ cols →
  row_key cols <$> rows (setconst d c v) = row_key cols <$> rows d.
Proof.
  intros Hc. unfold rows, setconst. simpl. rewrite <- !list_fmap_compose.
  apply list_fmap_ext. intros i [j r] _. simpl. by apply row_key_insert.
Qed.

Lemma keys_delcol (cols : list string) (d out : DataFrame) (c : string) :
  c ∉ cols → delcol d c = Ok out →
  row_key cols <$> rows out = row_key cols <$> rows d.
Proof.
  intros Hc. unfold delcol. case_bool_decide; [| done]. intros [= <-].
  unfold rows. simpl. rewrite <- !list_fmap_compose.
  apply list_fmap_ext. intros i [j r] _. simpl. by apply row_key_delete.
Qed.

Lemma keys_setcol (cols : list string) (d out : DataFrame) (c : string)
    (f : row → result value) :
  c ∉ cols → setcol d c f = Ok out →
  row_key cols <$> rows out = row_key cols <$> rows d.
Proof.
  intros Hc. unfold setcol. intros (es & Hes%traverse_Ok & [= <-])%bind_Ok.
  unfold rows. simpl. induction Hes as [|e e' l l' He _ IH]; [done |].
  csimpl. rewrite IH. f_equal.
  apply bind_Ok in He as (v & _ & [= <-]). simpl. by apply row_key_insert.
Qed.

Ltac not_a_key := refine (bool_decide_unpack _ _); vm_compute; exact I.

(** X13. The merged tables have one record for a key: [load_addrm], and
    [load_ground] where it is not asked to keep the priorities. *)
Theorem pipelines_one_row_per_key
    (il : DataFrame → DataFrame → bool) (toler : Qc)
    (ds : list DataFrame) (out : DataFrame) :
  indexed_like_sound il →
  (load_ground il false toler ds = Ok out →
   NoDup (row_key ["freq"; "num_filled"; "num_shells"; "method"]
            <$> rows out))
  ∧ (load_addrm il toler ds = Ok out →
     NoDup (row_key ["label"; "ml"; "interaction"; "freq"; "num_filled";
                     "num_shells"; "method"] <$> rows out)).
Proof.
  intros Hsound. split; intros Hout.
  - unfold load_ground in Hout.
    apply bind_Ok in Hout as (d & _ & Hout).
    apply bind_Ok in Hout as (d1 & Hcheck & Hout).
    apply bind_Ok in Hout as (d2 & Hdel & Hout).
    apply bind_Ok in Hout as (d3 & Hnp & Hepp).
    unfold set_energy_per_particle in Hepp.
    apply bind_Ok in Hepp as (_ & _ & (_ & _ & Hepp)%bind_Ok).
    unfold set_num_particles in Hnp. apply bind_Ok in Hnp as (_ & _ & Hnp).
    simpl in Hdel.
    set (K := ["freq"; "num_filled"; "num_shells"; "method"]) in *.
    rewrite (keys_setcol K _ _ "energy_per_particle" _ ltac:(not_a_key) Hepp).
    rewrite (keys_setcol K _ _ "num_particles" _ ltac:(not_a_key) Hnp).
    rewrite !(keys_setconst K) by not_a_key.
    rewrite (keys_delcol K _ _ "priority" ltac:(not_a_key) Hdel).
    eapply check_fun_dep_unique_keys; [done | | done].
    apply priority_combiner_one.
  - unfold load_addrm in Hout.
    apply bind_Ok in Hout as (d & _ & Hout).
    apply bind_Ok in Hout as (d1 & Hcheck & Hnp).
    unfold set_num_particles in Hnp. apply bind_Ok in Hnp as (_ & _ & Hnp).
    set (K := ["label"; "ml"; "interaction"; "freq"; "num_filled";
               "num_shells"; "method"]) in *.
    rewrite (keys_setcol K _ _ "num_particles" _ ltac:(not_a_key) Hnp).
    eapply check_fun_dep_unique_keys; [done | | done].
    apply leftmost_combiner_one.
Qed.

Lemma pipelines_one_row_per_key_witness :
  (∃ out, load_ground index_equals false (Q2Qc (1 # 100)) ground_sources = Ok out
          ∧ NoDup (row_key ["freq"; "num_filled"; "num_shells"; "method"]
                     <$> rows out))
  ∧ (∃ out, load_addrm index_equals (Q2Qc (1 # 100)) addrm_sources = Ok out
            ∧ NoDup (row_key ["label"; "ml"; "interaction"; "freq";
                              "num_filled"; "num_shells"; "method"]
                       <$> rows out)).
Proof.
  split.
  - destruct (load_ground index_equals false (Q2Qc (1 # 100)) ground_sources)
      as [out|e] eqn:E; [| by vm_compute in E].
    exists out. split; [done |].
    by apply (pipelines_one_row_per_key index_equals (Q2Qc (1 # 100))
                ground_sources out index_equals_sound).
  - destruct (load_addrm index_equals (Q2Qc (1 # 100)) addrm_sources)
      as [out|e] eqn:E; [| by vm_compute in E].
    exists out. split; [done |].
    by apply (pipelines_one_row_per_key index_equals (Q2Qc (1 # 100))
                addrm_sources out index_equals_sound).
Defined.

(** *** [check_fun_dep] without a tolerance *)

(** X14. [check_fun_dep] cannot be used without a column to check: with no
    tolerance it returns for the empty table only, and on a table with
    records, all with their keys, what it raises is the [TypeError] that
    [functools.reduce] has for a sequence with no element. *)
Theorem check_fun_dep_needs_tolerance
    (il : DataFrame → DataFrame → bool) (d : DataFrame) (cols : list string)
    (combiner : option (DataFrame → result DataFrame)) :
  (∀ out, check_fun_dep il d cols [] combiner = Ok out → len d = 0)
  ∧ (len d ≠ 0 → cols ≠ [] → (∀ c, c ∈ cols → c ∈ columns d) →
     (∀ c, c ∈ cols → ∀ r, r ∈ rows d → cell r c ≠ VNull) →
     check_fun_dep il d cols [] combiner
     = Raise (TypeError "reduce() of empty sequence with no initial value")).
Proof.
  split.
  - intros out. unfold check_fun_dep.
    destruct (groupby d cols) as [gs|e]; [| done]. rewrite bind_Ok_l.
    case_bool_decide; [done |].
    destruct (require_columns _ _) as [[]|e]; [| done]. rewrite bind_Ok_l.
    by destruct (existsb _ (rows d)).
  - intros Hlen Hne Hcols Hnull. unfold check_fun_dep.
    assert (groupby d cols = Ok (mkGroupBy d cols)) as ->
      by (by apply groupby_Ok).
    rewrite bind_Ok_l, bool_decide_eq_false_2 by done.
    cbn [fmap list_fmap]. rewrite app_nil_r.
    assert (require_columns d cols = Ok tt) as ->
      by (by apply require_columns_Ok).
    rewrite bind_Ok_l. by rewrite null_check_passes.
Qed.

Lemma check_fun_dep_needs_tolerance_witness :
  check_fun_dep index_equals two_sources ["k"] [] (Some leftmost_combiner)
  = Raise (TypeError "reduce() of empty sequence with no initial value").
Proof.
  apply (check_fun_dep_needs_tolerance index_equals two_sources ["k"]
           (Some leftmost_combiner)); [done | done | |].
  - intros c ->%list_elem_of_singleton. vm_compute. done.
  - intros c ->%list_elem_of_singleton.
    apply Forall_forall. refine (bool_decide_unpack _ _). vm_compute. exact I.
Defined.

(** *** [parse_nathan_like_data] *)

Lemma cell_rename_row (new : string → string) (r : row) (l : list string)
    (c' : string) (v : value) :
  (∃ c, c ∈ l ∧ new c = c') →
  (∀ c, c ∈ l → new c = c' → cell r c = v) →
  cell (rename_row new l r) c' = v.
Proof.
  unfold rename_row.
  induction l as [|c l IH]; intros (c0 & Hc0 & Hnew) Hv.
  { by apply elem_of_nil in Hc0. }
  simpl. destruct (decide (new c = c')) as [<- | Hne].
  - rewrite cell_insert_eq. apply Hv; [left | done].
  - rewrite cell_insert_ne by done. apply IH.
    + exists c0. split; [| done].
      apply elem_of_cons in Hc0 as [-> | ?]; [done | done].
    + intros x Hx. apply Hv. by right.
Qed.

Lemma cell_rename_row_other (new : string → string) (r : row)
    (l : list string) (c' : string) :
  (∀ c, c ∈ l → new c ≠ c') → cell (rename_row new l r) c' = VNull.
Proof.
  unfold rename_row. induction l as [|c l IH]; intros Hn; [done |]. simpl.
  rewrite cell_insert_ne by (apply Hn; left). apply IH.
  intros x Hx. apply Hn. by right.
Qed.

Lemma rows_setconst_eq (d : DataFrame) (c : string) (v : value) :
  rows (setconst d c v) = insert c v <$> rows d.
Proof.
  unfold rows, setconst. simpl. rewrite <- !list_fmap_compose.
  by apply list_fmap_ext.
Qed.

Lemma rows_rename_columns (d : DataFrame) (m : list (string * string)) :
  rows (rename_columns d m)
  = rename_row (renaming m) (elements (columns d)) <$> rows d.
Proof.
  unfold rows, rename_columns. simpl. rewrite <- !list_fmap_compose.
  by apply list_fmap_ext.
Qed.

Lemma rows_select_columns (d out : DataFrame) (cs : list string) :
  select_columns d cs = Ok out →
  columns out = list_to_set cs ∧ rows out = rename_row id cs <$> rows d.
Proof.
  unfold select_columns. intros ([] & _ & [= <-])%bind_Ok. split; [done |].
  unfold rows. simpl. rewrite <- !list_fmap_compose. by apply list_fmap_ext.
Qed.

Lemma rows_setcol_Forall2 (d out : DataFrame) (c : string)
    (f : row → result value) :
  setcol d c f = Ok out →
  Forall2 (λ r r', ∃ v, f r = Ok v ∧ r' = <[c := v]> r) (rows d) (rows out).
Proof.
  unfold setcol. intros (es & Hes%traverse_Ok & [= <-])%bind_Ok.
  unfold rows. simpl. apply Forall2_fmap.
  eapply Forall2_impl; [exact Hes |]. intros e e' (v & Hv & [= <-])%bind_Ok.
  by exists v.
Qed.

Lemma getcol_Ok (d : DataFrame) (c : string) (vs : list value) :
  getcol d c = Ok vs → c ∈ columns d.
Proof. unfold getcol. by case_bool_decide. Qed.

Lemma getcol_Raise (d : DataFrame) (c : string) :
  c ∉ columns d → getcol d c = Raise (KeyError c).
Proof. intros Hc. unfold getcol. by rewrite bool_decide_eq_false_2. Qed.

Ltac in_list H :=
  repeat (apply elem_of_cons in H as [-> | H]); [.. | by apply elem_of_nil in H].

(** X15. What [parse_nathan_like_data] returns: the table in the common schema,
    record by record, where the energy is the difference of energies that the
    source gives for an addition and its negative for a removal.  Another
    label is a [ValueError], whatever the table, and a table that lacks the
    column of the differences is a [KeyError]. *)
Theorem parse_nathan_like_data_spec (d out : DataFrame) (label : string) :
  (parse_nathan_like_data d label = Ok out →
   (label = "add" ∨ label = "rm")
   ∧ columns out
     = list_to_set ["num_shells"; "num_filled"; "ml"; "freq"; "energy"; "label"]
   ∧ Forall2 (λ r r',
        cell r' "num_shells" = cell r "shells"
        ∧ cell r' "num_filled" = cell r "filled"
        ∧ cell r' "ml" = cell r "ML"
        ∧ cell r' "freq" = cell r "omega"
        ∧ (if bool_decide (label = "add") then Ok (cell r "E(N+1)-E(N)")
           else neg_value (cell r "E(N-1)-E(N)")) = Ok (cell r' "energy")
        ∧ cell r' "label" = VStr label
        ∧ ∀ c, c ∉ ["num_shells"; "num_filled"; "ml"; "freq"; "energy";
                    "label"] → cell r' c = VNull)
       (rows d) (rows out))
  ∧ (label ≠ "add" → label ≠ "rm" →
     parse_nathan_like_data d label
     = Raise (ValueError "invalid value for label parameter"))
  ∧ ("E(N+1)-E(N)" ∉ columns d →
     parse_nathan_like_data d "add" = Raise (KeyError "E(N+1)-E(N)"))
  ∧ ("E(N-1)-E(N)" ∉ columns d →
     parse_nathan_like_data d "rm" = Raise (KeyError "E(N-1)-E(N)")).
Proof.
  split; [| split; [| split]].
  2: { intros Ha Hr. unfold parse_nathan_like_data.
       by rewrite !bool_decide_eq_false_2 by done. }
  2: { intros Hc. unfold parse_nathan_like_data.
       rewrite bool_decide_eq_true_2 by done. by rewrite getcol_Raise. }
  2: { intros Hc. unfold parse_nathan_like_data.
       rewrite bool_decide_eq_false_2 by done.
       rewrite bool_decide_eq_true_2 by done. by rewrite getcol_Raise. }
  unfold parse_nathan_like_data.
  intros (d1 & Hd1 & (d2 & Hd2 & [= <-])%bind_Ok)%bind_Ok.
  apply rows_select_columns in Hd2 as [Hcols Hd2].
  assert ((label = "add" ∨ label = "rm")
          ∧ Forall2 (λ r r1, ∃ v,
               (if bool_decide (label = "add") then Ok (cell r "E(N+1)-E(N)")
                else neg_value (cell r "E(N-1)-E(N)")) = Ok v
               ∧ r1 = <["energy" := v]> r) (rows d) (rows d1)) as [Hl Hrows].
  { case_bool_decide as Ha.
    - split; [by left |]. apply bind_Ok in Hd1 as (_ & _ & Hd1).
      by apply rows_setcol_Forall2 in Hd1.
    - case_bool_decide as Hr; [| done].
      split; [by right |]. apply bind_Ok in Hd1 as (_ & _ & Hd1).
      by apply rows_setcol_Forall2 in Hd1. }
  split; [done |]. split.
  { unfold setconst, rename_columns. cbn [columns]. rewrite Hcols.
    vm_compute. reflexivity. }
  rewrite rows_setconst_eq, rows_rename_columns, Hd2, Hcols.
  rewrite <- !list_fmap_compose. apply Forall2_fmap_r.
  eapply Forall2_impl; [exact Hrows |].
  intros r r1 (v & Hv & ->). cbn [compose].
  set (cs := ["shells"; "filled"; "ML"; "omega"; "energy"]).
  set (new := renaming _).
  set (r2 := rename_row id cs (<["energy" := v]> r)).
  assert (∀ c, c ∈ elements (list_to_set cs : gset string) ↔ c ∈ cs) as Hel.
  { intros c. by rewrite elem_of_elements, elem_of_list_to_set. }
  assert (∀ c, c ∈ cs → cell r2 c = cell (<["energy" := v]> r) c) as Hsel.
  { intros c Hc. unfold r2.
    apply (cell_rename_row id (<["energy" := v]> r) cs c); [by exists c |].
    intros c0 _ Heq. simpl in Heq. by subst. }
  assert (∀ old c', old ∈ cs → new old = c' →
            (∀ c, c ∈ cs → new c = c' → c = old) →
            cell (rename_row new (elements (list_to_set cs : gset string)) r2) c'
            = cell (<["energy" := v]> r) old) as Hren.
  { intros old c' Hold Hnew Huniq. apply cell_rename_row.
    - exists old. by rewrite Hel.
    - intros c Hc%Hel Hc'. rewrite (Huniq c Hc Hc'). by apply Hsel. }
  split; [| split; [| split; [| split; [| split; [| split]]]]].
  - rewrite cell_insert_ne by done.
    rewrite (Hren "shells" "num_shells");
      [by rewrite cell_insert_ne | by apply list_elem_of_In; simpl; tauto | done |].
    intros c Hc. in_list Hc; by vm_compute.
  - rewrite cell_insert_ne by done.
    rewrite (Hren "filled" "num_filled");
      [by rewrite cell_insert_ne | by apply list_elem_of_In; simpl; tauto | done |].
    intros c Hc. in_list Hc; by vm_compute.
  - rewrite cell_insert_ne by done.
    rewrite (Hren "ML" "ml");
      [by rewrite cell_insert_ne | by apply list_elem_of_In; simpl; tauto | done |].
    intros c Hc. in_list Hc; by vm_compute.
  - rewrite cell_insert_ne by done.
    rewrite (Hren "omega" "freq");
      [by rewrite cell_insert_ne | by apply list_elem_of_In; simpl; tauto | done |].
    intros c Hc. in_list Hc; by vm_compute.
  - rewrite cell_insert_ne by done.
    rewrite (Hren "energy" "energy");
      [by rewrite cell_insert_eq | by apply list_elem_of_In; simpl; tauto | done |].
    intros c Hc. in_list Hc; by vm_compute.
  - by rewrite cell_insert_eq.
  - intros c Hc. rewrite cell_insert_ne.
    2: { intros <-. apply Hc. apply list_elem_of_In. simpl. tauto. }
    apply cell_rename_row_other. intros c0 Hc0%Hel Hnew. apply Hc.
    rewrite <- Hnew. in_list Hc0; apply list_elem_of_In; vm_compute; tauto.
Qed.

Lemma parse_nathan_like_data_spec_witness :
  ∃ out, parse_nathan_like_data removed_table "rm" = Ok out
    ∧ ("rm" = "add" ∨ "rm" = "rm")
    ∧ columns out
      = list_to_set ["num_shells"; "num_filled"; "ml"; "freq"; "energy"; "label"]
    ∧ Forall2 (λ r r',
         cell r' "num_shells" = cell r "shells"
         ∧ cell r' "num_filled" = cell r "filled"
         ∧ cell r' "ml" = cell r "ML"
         ∧ cell r' "freq" = cell r "omega"
         ∧ (if bool_decide ("rm" = "add") then Ok (cell r "E(N+1)-E(N)")
            else neg_value (cell r "E(N-1)-E(N)")) = Ok (cell r' "energy")
         ∧ cell r' "label" = VStr "rm"
         ∧ ∀ c, c ∉ ["num_shells"; "num_filled"; "ml"; "freq"; "energy";
                     "label"] → cell r' c = VNull)
        (rows removed_table) (rows out).
Proof.
  assert (∃ out, parse_nathan_like_data removed_table "rm" = Ok out) as [out E]
    by (eexists; vm_compute; reflexivity).
  exists out. split; [exact E |].
  exact (proj1 (parse_nathan_like_data_spec removed_table out "rm") E).
Defined.

(** *** The result of [utils.groupby] *)

Lemma groups_partition_filter (gs : GroupBy) :
  groups gs ≫= entries
  ≡ₚ filter (λ e, VNull ∉ row_key (gb_by gs) e.2) (entries (gb_obj gs)).
Proof.
  rewrite groups_entries_bind.
  set (es := filter _ (entries (gb_obj gs))).
  assert (∀ k, k ∈ group_keys gs → VNull ∉ k) as Hnn.
  { intros k. unfold group_keys. rewrite merge_sort_Permutation.
    by intros [? _]%elem_of_remove_dups%list_elem_of_filter. }
  transitivity
    (group_keys gs
       ≫= (λ k, filter (λ e : nat * row, row_key (gb_by gs) e.2 = k) es)).
  { apply reflexive_eq.
    induction (group_keys gs) as [|k ks IH]; [done |]. csimpl.
    rewrite IH by (intros k' Hk'; apply Hnn; by right). f_equal.
    unfold es. rewrite list_filter_filter. apply list_filter_iff.
    intros e. split; [| by intros [? _]]. intros Hk. split; [done |].
    rewrite Hk. apply Hnn. left. }
  apply (bind_filter_partition (λ e : nat * row, row_key (gb_by gs) e.2)).
  - apply group_keys_NoDup.
  - intros e [Hn He]%list_elem_of_filter. by apply get_group_entry.
Qed.

Lemma zip_row_key (cols : list string) (r : row) (c : string) (v : value) :
  (c, v) ∈ zip cols (row_key cols r) → cell r c = v.
Proof.
  unfold row_key. induction cols as [|c0 cols IH]; simpl.
  - by intros ?%elem_of_nil.
  - intros [[= -> ->] | ?]%elem_of_cons; [done | by apply IH].
Qed.

(** X22. The pairs that [groupby] yields: a key has a value, and not a missing
    one, for each of the columns, in their order; its group has a record, and
    every record of the group has the values of the key.  No key comes
    twice, and the groups together are the records of the table that lack no
    key. *)
Theorem groupby_partition (d : DataFrame) (cols : list string)
    (items : list (list (string * value) * DataFrame)) :
  Utils.groupby d cols = Ok items →
  (∀ key g, (key, g) ∈ items →
     key.*1 = cols ∧ (VNull ∉ key.*2) ∧ len g ≠ 0
     ∧ ∀ r c v, r ∈ rows g → (c, v) ∈ key → cell r c = v)
  ∧ NoDup items.*1
  ∧ (items.*2) ≫= entries
    ≡ₚ filter (λ e, VNull ∉ row_key cols e.2) (entries d).
Proof.
  unfold Utils.groupby. intros (gs & (-> & Hne & Hcols)%groupby_Ok & [= <-])%bind_Ok.
  set (gs := mkGroupBy d cols).
  assert (∀ k, k ∈ group_keys gs →
            (VNull ∉ k) ∧ ∃ e, e ∈ entries d ∧ row_key cols e.2 = k) as Hk.
  { intros k. unfold group_keys. rewrite merge_sort_Permutation.
    intros [? (r & -> & (e & -> & He)%list_elem_of_fmap)%list_elem_of_fmap]%elem_of_remove_dups%list_elem_of_filter.
    split; [done |]. by exists e. }
  assert (∀ k, k ∈ group_keys gs → (zip cols k).*1 = cols ∧ (zip cols k).*2 = k)
    as Hzip.
  { intros k (_ & e & _ & <-)%Hk. unfold row_key.
    split; [apply fst_zip | apply snd_zip]; rewrite length_fmap; lia. }
  split; [| split].
  - intros key g (k & [= -> ->] & Hin)%list_elem_of_fmap.
    destruct (Hk k Hin) as (Hnn & e & He & Hek).
    destruct (Hzip k Hin) as [-> ->].
    split; [done |]. split; [done |]. split.
    + unfold len, get_group. simpl. intros Hl%length_zero_iff_nil.
      assert (e ∈ filter (λ e0 : nat * row, row_key cols e0.2 = k) (entries d))
        as Hf by (by apply list_elem_of_filter).
      rewrite Hl in Hf. by apply elem_of_nil in Hf.
    + intros r c v (e' & -> & [_ He']%get_group_key)%list_elem_of_fmap Hcv.
      simpl in He'. rewrite <- He' in Hcv. by eapply zip_row_key.
  - rewrite <- list_fmap_compose.
    apply NoDup_fmap_2_strong; [| apply group_keys_NoDup].
    intros k k' Hin Hin' Heq. simpl in Heq.
    destruct (Hzip k Hin) as [_ <-]. destruct (Hzip k' Hin') as [_ <-].
    by rewrite Heq.
  - rewrite <- list_fmap_compose. apply (groups_partition_filter gs).
Qed.

Lemma groupby_partition_witness :
  ∃ items, Utils.groupby old_and_new ["k"] = Ok items
    ∧ length items = 2
    ∧ NoDup items.*1
    ∧ (items.*2) ≫= entries
      ≡ₚ filter (λ e, VNull ∉ row_key ["k"] e.2) (entries old_and_new).
Proof.
  assert (∃ items, Utils.groupby old_and_new ["k"] = Ok items
                   ∧ length items = 2) as (items & E & Hl)
    by (eexists; split; [vm_compute; reflexivity | reflexivity]).
  exists items. split; [exact E |]. split; [exact Hl |].
  exact (proj2 (groupby_partition old_and_new ["k"] items E)).
Defined.

(** *** Small helpers *)

Lemma intersperse_foldl {A} (sep : A) (xs out : list A) :
  foldl (λ st x, if st.1 : bool then (false, st.2 ++ [x])
                 else (false, st.2 ++ [sep; x]))
        (false, out) xs
  = (false, out ++ (xs ≫= λ x, [sep; x])).
Proof.
  revert out. induction xs as [|x xs IH]; intros out; simpl.
  - by rewrite app_nil_r.
  - rewrite IH. by rewrite <- app_assoc.
Qed.

Lemma intersperse_cons {A} (sep x : A) (xs : list A) :
  intersperse sep (x :: xs) = x :: (xs ≫= λ y, [sep; y]).
Proof. unfold intersperse. simpl. by rewrite intersperse_foldl. Qed.

Lemma lookup_bind_sep {A} (sep : A) (xs : list A) (i : nat) :
  (xs ≫= λ y, [sep; y]) !! (2 * i + 1) = xs !! i
  ∧ (xs ≫= λ y, [sep; y]) !! (2 * i) = (λ _, sep) <$> xs !! i.
Proof.
  revert i. induction xs as [|x xs IH]; intros i; [done |].
  destruct i as [|i]; [done |]. csimpl.
  replace (2 * S i + 1) with (S (S (2 * i + 1))) by lia.
  replace (i + S (i + 0)) with (S (2 * i)) by lia. simpl. apply IH.
Qed.

(** X23. What [intersperse] yields: the elements of [xs] at the even places, in
    their order, and the separator at the odd places between them; nothing
    for no element, and no separator at either end. *)
Theorem intersperse_spec {A} (sep : A) (xs : list A) :
  length (intersperse sep xs) = 2 * length xs - 1
  ∧ (∀ i, intersperse sep xs !! (2 * i) = xs !! i)
  ∧ (∀ i, intersperse sep xs !! (2 * i + 1)
          = (λ _, sep) <$> xs !! (i + 1)).
Proof.
  destruct xs as [|x xs].
  { split; [done |]. split; intros i; by rewrite !lookup_nil. }
  rewrite intersperse_cons. split; [| split].
  - simpl. assert (length (xs ≫= λ y, [sep; y]) = 2 * length xs) as ->; [| lia].
    induction xs as [|y xs IH]; [done |]. csimpl. rewrite IH. lia.
  - intros [|i]; [done |].
    replace (2 * S i) with (S (2 * i + 1)) by lia. simpl.
    apply lookup_bind_sep.
  - intros i. replace (2 * i + 1) with (S (2 * i)) by lia.
    replace (i + 1) with (S i) by lia. simpl. apply lookup_bind_sep.
Qed.

Lemma merge_dicts_snoc `{Countable K} {V} (d di : gmap K V)
    (ds : list (gmap K V)) :
  merge_dicts d (ds ++ [di]) = di ∪ merge_dicts d ds.
Proof. unfold merge_dicts. by rewrite foldl_app. Qed.

Lemma merge_dicts_absent `{Countable K} {V} (d : gmap K V)
    (ds : list (gmap K V)) (k : K) :
  (∀ di, di ∈ ds → di !! k = None) → merge_dicts d ds !! k = d !! k.
Proof.
  induction ds as [|di ds IH] using rev_ind; intros Hn; [done |].
  rewrite merge_dicts_snoc, lookup_union_r.
  - apply IH. intros dj Hj. apply Hn, elem_of_app. by left.
  - apply Hn, elem_of_app. right. left.
Qed.

(** X24. [merge_dicts] looks a key up in the last of the dictionaries that has
    it, and in [d] when none of [ds] has it. *)
Theorem merge_dicts_lookup `{Countable K} {V} (d : gmap K V)
    (ds : list (gmap K V)) (k : K) :
  ((∀ di, di ∈ ds → di !! k = None) → merge_dicts d ds !! k = d !! k)
  ∧ ∀ l1 di l2 v, ds = l1 ++ di :: l2 → di !! k = Some v →
                  (∀ dj, dj ∈ l2 → dj !! k = None) →
                  merge_dicts d ds !! k = Some v.
Proof.
  split; [apply merge_dicts_absent |].
  intros l1 di l2 v -> Hv Hl2. unfold merge_dicts.
  rewrite foldl_app. simpl.
  change (merge_dicts (di ∪ foldl (λ d0 di0, di0 ∪ d0) d l1) l2 !! k = Some v).
  rewrite merge_dicts_absent by done. by apply lookup_union_Some_l.
Qed.

(** *** Ranges *)

Section RangeProperties.

Import Range.

Lemma number_le_refl (a : number) : a ≠ NaN → le a a = true.
Proof.
  destruct a; try done. intros _. simpl. by apply bool_decide_eq_true.
Qed.

Lemma number_le_trans (a b c : number) :
  le a b = true → le b c = true → le a c = true.
Proof.
  destruct a, b, c; simpl; try done.
  rewrite !bool_decide_eq_true. apply Qcle_trans.
Qed.

Lemma number_le_total (a b : number) :
  a ≠ NaN → b ≠ NaN → le a b = true ∨ le b a = true.
Proof.
  destruct a as [|x| |], b as [|y| |]; simpl; try done; auto.
  intros _ _. rewrite !bool_decide_eq_true.
  destruct (Qclt_le_dec x y) as [H|H]; [left; by apply Qclt_le_weak | by right].
Qed.

Lemma update_range_bounds (r : range) (xs : list number) :
  NaN ∉ lower_candidates r xs → NaN ∉ upper_candidates r xs →
  (lower_candidates r xs ≠ [] →
   ∃ lo, (update_range r xs).1 = Some lo ∧ lo ∈ lower_candidates r xs
         ∧ ∀ c, c ∈ lower_candidates r xs → le lo c = true)
  ∧ (upper_candidates r xs ≠ [] →
     ∃ hi, (update_range r xs).2 = Some hi ∧ hi ∈ upper_candidates r xs
           ∧ ∀ c, c ∈ upper_candidates r xs → le c hi = true).
Proof.
  revert r. induction xs as [|x xs IH]; intros [r0 r1] Hlo Hhi.
  { unfold lower_candidates, upper_candidates in *. simpl in *. split.
    - destruct r0 as [a|]; [| done]. intros _. exists a. split; [done |].
      split; [left |]. intros c ->%list_elem_of_singleton. apply number_le_refl.
      intros ->. apply Hlo. left.
    - destruct r1 as [b|]; [| done]. intros _. exists b. split; [done |].
      split; [left |]. intros c ->%list_elem_of_singleton. apply number_le_refl.
      intros ->. apply Hhi. left. }
  unfold update_range. simpl. fold (update_range (update (r0, r1) x) xs).
  assert (x ≠ NaN) as Hx.
  { intros ->. apply Hlo. unfold lower_candidates. simpl.
    destruct r0; [right |]; left. }
  destruct (IH (update (r0, r1) x)) as [IHlo IHhi].
  { unfold lower_candidates, update in *. simpl in *.
    destruct r0 as [a|]; [destruct (le a x) |]; simpl; intros Hin; apply Hlo;
      [ apply elem_of_cons in Hin as [-> | ?]; [left | by do 2 right]
      | by right | done ]. }
  { unfold upper_candidates, update in *. simpl in *.
    destruct r1 as [b|]; [destruct (le x b) |]; simpl; intros Hin; apply Hhi;
      [ apply elem_of_cons in Hin as [-> | ?]; [left | by do 2 right]
      | by right | done ]. }
  split; intros _.
  - destruct IHlo as (lo & Hres & Hin & Hmin).
    { unfold lower_candidates, update. simpl. by destruct r0 as [a|]; [destruct (le a x) |]. }
    exists lo. split; [done |].
    unfold lower_candidates, update in *. simpl in *.
    destruct r0 as [a|].
    + assert (a ≠ NaN) as Ha by (intros ->; apply Hlo; left).
      destruct (le a x) eqn:Hax; simpl in *.
      * split; [apply elem_of_cons in Hin as [-> | ?]; [left | by do 2 right] |].
        intros c [-> | [-> | Hc]%elem_of_cons]%elem_of_cons.
        -- apply Hmin. left.
        -- eapply number_le_trans; [apply Hmin; left | done].
        -- apply Hmin. by right.
      * split; [by right |].
        intros c [-> | [-> | Hc]%elem_of_cons]%elem_of_cons.
        -- destruct (number_le_total a x Ha Hx) as [? | Hxa]; [congruence |].
           eapply number_le_trans; [apply Hmin; left | done].
        -- apply Hmin. left.
        -- apply Hmin. by right.
    + by split.
  - destruct IHhi as (hi & Hres & Hin & Hmax).
    { unfold upper_candidates, update. simpl. by destruct r1 as [b|]; [destruct (le x b) |]. }
    exists hi. split; [done |].
    unfold upper_candidates, update in *. simpl in *.
    destruct r1 as [b|].
    + assert (b ≠ NaN) as Hb by (intros ->; apply Hhi; left).
      destruct (le x b) eqn:Hxb; simpl in *.
      * split; [apply elem_of_cons in Hin as [-> | ?]; [left | by do 2 right] |].
        intros c [-> | [-> | Hc]%elem_of_cons]%elem_of_cons.
        -- apply Hmax. left.
        -- eapply number_le_trans; [done | apply Hmax; left].
        -- apply Hmax. by right.
      * split; [by right |].
        intros c [-> | [-> | Hc]%elem_of_cons]%elem_of_cons.
        -- destruct (number_le_total x b Hx Hb) as [? | Hbx]; [congruence |].
           eapply number_le_trans; [done | apply Hmax; left].
        -- apply Hmax. left.
        -- apply Hmax. by right.
    + by split.
Qed.

(** X25. From a range that holds nothing yet, and for elements without a NaN,
    [update_range] leaves the least and the greatest element in the range. *)
Theorem update_range_min_max (xs : list number) :
  NaN ∉ xs → xs ≠ [] →
  ∃ lo hi, update_range (None, None) xs = (Some lo, Some hi)
           ∧ lo ∈ xs ∧ hi ∈ xs
           ∧ ∀ x, x ∈ xs → le lo x = true ∧ le x hi = true.
Proof.
  intros Hnan Hne.
  destruct (update_range_bounds (None, None) xs Hnan Hnan) as [Hlo Hhi].
  destruct (Hlo Hne) as (lo & Elo & Hlo_in & Hmin).
  destruct (Hhi Hne) as (hi & Ehi & Hhi_in & Hmax).
  exists lo, hi. split; [| by auto].
  destruct (update_range _ xs) as [a b]. simpl in *. by subst.
Qed.

Lemma update_range_min_max_witness :
  ∃ lo hi,
    update_range (None, None)
      [Fin (Q2Qc (3 # 2)); NegInf; Fin (Q2Qc (7 # 1)); Fin (Q2Qc 0)]
    = (Some lo, Some hi)
    ∧ lo ∈ [Fin (Q2Qc (3 # 2)); NegInf; Fin (Q2Qc (7 # 1)); Fin (Q2Qc 0)]
    ∧ hi ∈ [Fin (Q2Qc (3 # 2)); NegInf; Fin (Q2Qc (7 # 1)); Fin (Q2Qc 0)]
    ∧ ∀ x, x ∈ [Fin (Q2Qc (3 # 2)); NegInf; Fin (Q2Qc (7 # 1)); Fin (Q2Qc 0)] →
           le lo x = true ∧ le x hi = true.
Proof.
  apply (update_range_min_max
           [Fin (Q2Qc (3 # 2)); NegInf; Fin (Q2Qc (7 # 1)); Fin (Q2Qc 0)]);
    [| done].
  refine (bool_decide_unpack _ _). vm_compute. exact I.
Defined.

(** X26. A NaN among the elements takes the place of both bounds, and the next
    element takes the place of the NaN: what the range held and the elements
    before the NaN are forgotten. *)
Theorem update_range_nan (r : range) (xs : list number) :
  update_range r (xs ++ [NaN]) = (Some NaN, Some NaN)
  ∧ ∀ y ys, update_range r (xs ++ NaN :: y :: ys)
            = update_range (None, None) (y :: ys).
Proof.
  assert (∀ r', update r' NaN = (Some NaN, Some NaN)) as Hnan.
  { intros [[a|] [b|]]; unfold update; simpl; try done;
      by destruct a; try destruct b. }
  unfold update_range. split.
  - rewrite foldl_app. simpl. apply Hnan.
  - intros y ys. rewrite foldl_app. simpl. rewrite Hnan.
    f_equal. unfold update. simpl. by destruct y.
Qed.

End RangeProperties.

(** *** Colours *)

Lemma string_length_append (s t : string) :
  String.length (s +:+ t) = String.length s + String.length t.
Proof. induction s as [|a s IH]; simpl; [done | by rewrite IH]. Qed.

Lemma parse_color_long (int16 : string → option Z) (color : string) :
  7 < String.length color →
  ∃ e, Colors.parse_color int16 (inl color) = inl e.
Proof.
  intros Hlen. unfold Colors.parse_color.
  destruct color as [|c s]; [by eexists |].
  case_bool_decide; [by eexists |].
  destruct (Colors.channel _ _ 1 3); [by eexists |].
  destruct (Colors.channel _ _ 3 5); [by eexists |].
  destruct (Colors.channel _ _ 5 7); [by eexists |].
  rewrite bool_decide_eq_true_2 by done. by eexists.
Qed.

(** X27. [parse_color] reads no colour with an alpha channel: for a string of
    more than seven characters it raises, and where the string starts with
    ["#"] and its three components are read, what it raises is the
    [NameError] of the name [hexcolor], which the function does not bind. *)
Theorem parse_color_alpha (int16 : string → option Z) (color : string) :
  7 < String.length color →
  (∃ e, Colors.parse_color int16 (inl color) = inl e)
  ∧ (∀ r g b, String.substring 0 1 color = "#" →
              Colors.channel int16 color 1 3 = inr r →
              Colors.channel int16 color 3 5 = inr g →
              Colors.channel int16 color 5 7 = inr b →
              Colors.parse_color int16 (inl color)
              = inl (Colors.NameError "hexcolor")).
Proof.
  intros Hlen. split; [by apply parse_color_long |].
  intros r g b H0 Hr Hg Hb. unfold Colors.parse_color.
  destruct color as [|c s]; [done |].
  assert (String c EmptyString = "#") as Hc by (by destruct s).
  rewrite bool_decide_eq_false_2 by (by intros []).
  rewrite Hr, Hg, Hb. by rewrite bool_decide_eq_true_2.
Qed.

Lemma parse_color_alpha_witness :
  (∃ e, Colors.parse_color Colors.sample_int16 (inl "#42bf8780") = inl e)
  ∧ Colors.parse_color Colors.sample_int16 (inl "#42bf8780")
    = inl (Colors.NameError "hexcolor")
  ∧ ∃ cs, Colors.parse_color Colors.sample_int16 (inl "#42bf87") = inr cs.
Proof.
  destruct (parse_color_alpha Colors.sample_int16 "#42bf8780") as [H1 H2];
    [simpl; lia |].
  split; [exact H1 |]. split; [| by eexists].
  by eapply H2.
Defined.

(** X28. [split_alpha_colormap] raises for every colour of six characters or
    more, and so for every colour ["#rrggbb"]: the colours that it passes on
    have an alpha channel. *)
Theorem split_alpha_colormap_raises {Colormap} (int16 : string → option Z)
    (build : string → list (list Qc) → Colors.error + Colormap)
    (name hexcolor : string) :
  6 ≤ String.length hexcolor →
  ∃ e, Colors.split_alpha_colormap int16 build name hexcolor = inl e.
Proof.
  intros Hlen. unfold Colors.split_alpha_colormap, Colors.colormap.
  cbn [Colors.parse_colors].
  destruct (parse_color_long int16 (hexcolor +:+ "00")) as [e ->].
  { rewrite string_length_append. simpl. lia. }
  by exists e.
Qed.

Lemma split_alpha_colormap_raises_witness :
  ∃ e, Colors.split_alpha_colormap Colors.sample_int16
         (λ _ rgba, inr rgba) "alpha" "#42bf87"
       = inl e.
Proof.
  apply (split_alpha_colormap_raises Colors.sample_int16
           (λ _ rgba, inr rgba) "alpha" "#42bf87").
  simpl. lia.
Defined.
